(** * WS2P module of Duniter: configuration hooks, endpoint filter and
    service facade (app/modules/ws2p/index.ts)

    The development embeds the TypeScript module shallowly:

    - JavaScript values and objects ([JsVal], [gmap string JsVal]);
    - the configuration hooks [onLoading] and [beforeSave];
    - the endpoint filter [getWrongEndpoints];
    - the class [WS2PAPI] ([startService], [stopService], [getEndpoint]) as
      a state-and-exception monad over the facade's fields, its collaborators
      (the connection cluster, the UPnP helper, the peering service) and a
      log of the calls the facade makes on them.

    The collaborators [WS2PCluster], [WS2PUpnp], [PeeringService], the
    regular expression [CommonConstants.WS2P_REGEXP] and the library
    [node-uuid] are imported by the module; they are interfaces here. *)

From Stdlib Require Import ZArith Lia DecimalString.
From stdpp Require Import base strings list gmap.

Open Scope string_scope.
Open Scope list_scope.

(** ** JavaScript values *)

(** The integers a JavaScript number holds exactly, the safe integers:
    those of absolute value at most [Number.MAX_SAFE_INTEGER] = 2^53 - 1. *)
Definition MAX_SAFE_INTEGER : Z := 9007199254740991.

Definition is_safe_integer (n : Z) : bool := (Z.abs n <=? MAX_SAFE_INTEGER)%Z.

Record SafeInteger : Type := SafeInt {
  int_val : Z;
  int_safe : Is_true (is_safe_integer int_val)
}.

#[global] Instance SafeInteger_eq_dec : EqDecision SafeInteger.
Proof.
  intros [a Ha] [b Hb]. destruct (decide (a = b)) as [Heq|Hne].
  - left. subst b. f_equal. revert Ha Hb.
    by destruct (is_safe_integer a); intros [] [].
  - right. by intros [= ->].
Defined.

(** The values the module manipulates: configuration fields and command line
    options.  Numbers are the safe integers ([parseInt] results, ports,
    limits) together with [NaN]; fractions, infinities and the integers
    beyond 2^53 are not values of the model.  Arrays are the arrays of
    strings of the configuration ([preferedNodes], [privilegedNodes]). *)
Inductive JsVal : Type :=
  | VUndef
  | VNull
  | VBool (b : bool)
  | VNum (n : SafeInteger)
  | VNaN
  | VStr (s : string)
  | VArr (l : list string).

#[global] Instance JsVal_eq_dec : EqDecision JsVal.
Proof. solve_decision. Defined.

(** ToBoolean: the test of [if (v)], [!v], [a && b], [a || b]. *)
Definition truthy (v : JsVal) : bool :=
  match v with
  | VUndef | VNull | VNaN => false
  | VBool b => b
  | VNum n => negb (int_val n =? 0)%Z
  | VStr s => negb (String.eqb s "")
  | VArr _ => true
  end.

(** [v === undefined] *)
Definition is_undefined (v : JsVal) : bool :=
  match v with VUndef => true | _ => false end.

(** [v === null] *)
Definition is_null (v : JsVal) : bool :=
  match v with VNull => true | _ => false end.

(** [v === false] *)
Definition is_false (v : JsVal) : bool :=
  match v with VBool false => true | _ => false end.

(** Number::toString on a safe integer: all of them are below 10^21, where
    the decimal digits are printed in full, with a minus sign for a
    negative one. *)
Definition decimal (n : Z) : string :=
  NilZero.string_of_int (Z.to_int n).

(** [String(v)] *)
Definition js_String (v : JsVal) : string :=
  match v with
  | VUndef => "undefined"
  | VNull => "null"
  | VBool true => "true"
  | VBool false => "false"
  | VNum n => decimal (int_val n)
  | VNaN => "NaN"
  | VStr s => s
  | VArr l => String.concat "," l
  end.

(** The conversion [Array.prototype.join] applies to each element:
    [undefined] and [null] give the empty string, anything else its
    [String]. *)
Definition js_join_elem (v : JsVal) : string :=
  match v with
  | VUndef | VNull => ""
  | _ => js_String v
  end.

(** [l.join(sep)] *)
Definition js_join (sep : string) (l : list JsVal) : string :=
  String.concat sep (js_join_elem <$> l).

(** [a || b] on values. *)
Definition js_or (a b : JsVal) : JsVal := if truthy a then a else b.

(** ** Objects and the configuration *)

(** A plain object is a finite map from property names to values.  Reading
    a property that the object does not have gives [undefined]. *)
Definition get (o : gmap string JsVal) (k : string) : JsVal :=
  default VUndef (o !! k).

(** [WS2PConfDTO]: the [ws2p] sub-object is optional; [other] holds the
    remaining top-level properties of the configuration, none of which this
    module reads or writes. *)
Record WS2PConfDTO : Type := mkConf {
  ws2p : option (gmap string JsVal);
  other : gmap string JsVal
}.

Definition set_ws2p (o : gmap string JsVal) (conf : WS2PConfDTO) : WS2PConfDTO :=
  {| ws2p := Some o; other := other conf |}.

(** [conf.ws2p && conf.ws2p[k]] read as a condition. *)
Definition ws2p_truthy (conf : WS2PConfDTO) (k : string) : bool :=
  match ws2p conf with
  | Some o => truthy (get o k)
  | None => false
  end.

(** [conf.ws2p[k]], for a configuration whose [ws2p] was found set. *)
Definition ws2p_field (c : WS2PConfDTO) (k : string) : JsVal :=
  match ws2p c with
  | Some o => get o k
  | None => VUndef
  end.

(** ** [config.beforeSave] *)

(** [if (!o[k]) delete o[k]] on the object [o]. *)
Definition omit_falsy (k : string) (o : gmap string JsVal) : gmap string JsVal :=
  if truthy (get o k) then o else delete k o.

(** [if (conf.ws2p && !conf.ws2p[k]) delete conf.ws2p[k]] *)
Definition delete_if_falsy (k : string) (conf : WS2PConfDTO) : WS2PConfDTO :=
  match ws2p conf with
  | Some o => set_ws2p (omit_falsy k o) conf
  | None => conf
  end.

Definition beforeSave (conf : WS2PConfDTO) : WS2PConfDTO :=
  let conf := delete_if_falsy "host" conf in
  let conf := delete_if_falsy "port" conf in
  let conf := delete_if_falsy "remoteport" conf in
  let conf := delete_if_falsy "remotehost" conf in
  conf.

(** The four optional address fields [beforeSave] looks at. *)
Definition address_fields : list string :=
  ["host"; "port"; "remoteport"; "remotehost"].


(** ** A state-and-exception monad

    An [async] function that mutates objects and may reject: a computation
    takes the state, returns the state it leaves behind and either the error
    it raised or its result.  The state is kept when an error is raised,
    since mutations made before a [throw] are not undone. *)

Definition Err : Type := string.

Definition M (S A : Type) : Type := S → S * (Err + A).

Definition ret {S A} (a : A) : M S A := λ s, (s, inr a).

Definition bind {S A B} (m : M S A) (k : A → M S B) : M S B :=
  λ s, match m s with
       | (s', inr a) => k a s'
       | (s', inl e) => (s', inl e)
       end.

Definition throw {S A} (e : Err) : M S A := λ s, (s, inl e).

(** [try { m } catch (e) { h e }] *)
Definition try_catch {S A} (m : M S A) (h : Err → M S A) : M S A :=
  λ s, match m s with
       | (s', inl e) => h e s'
       | r => r
       end.

Definition gets {S A} (f : S → A) : M S A := λ s, (s, inr (f s)).

Definition modify {S} (f : S → S) : M S unit := λ s, (f s, inr tt).

(** [if (b) { m }] *)
Definition when {S} (b : bool) (m : M S unit) : M S unit :=
  if b then m else ret tt.

Declare Scope js_scope.
Delimit Scope js_scope with js.
Notation "'let!' x ':=' m 'in' k" := (bind m (λ x, k))
  (at level 10, x name, m at level 100, k at level 200) : js_scope.
Notation "m1 ';;;' m2" := (bind m1 (λ _, m2))
  (at level 100, m2 at level 200, right associativity) : js_scope.
Open Scope js_scope.

(** ** [config.onLoading] *)

Section OnLoading.

(** [nuuid.v4()]: the string returned by the n-th call. *)
Variable nuuid_v4 : nat → string.

(** The global [parseInt]. *)
Variable parseInt : JsVal → JsVal.

(** The state of the hook: the configuration object it mutates and the
    number of identifiers drawn from [node-uuid] so far. *)
Record Loading : Type := mkLoading {
  l_conf : WS2PConfDTO;
  l_draws : nat
}.

(** [nuuid.v4().slice(0,8)] *)
Definition fresh_uuid : M Loading JsVal :=
  λ s, (mkLoading (l_conf s) (S (l_draws s)),
        inr (VStr (String.substring 0 8 (nuuid_v4 (l_draws s))))).

(** [conf.ws2p[k]]; reading a property of [undefined] raises. *)
Definition conf_get (k : string) : M Loading JsVal :=
  λ s, match ws2p (l_conf s) with
       | Some o => (s, inr (get o k))
       | None => (s, inl "TypeError: Cannot read property of undefined")
       end.

(** [conf.ws2p[k] = v] *)
Definition conf_set (k : string) (v : JsVal) : M Loading unit :=
  λ s, match ws2p (l_conf s) with
       | Some o => (mkLoading (set_ws2p (<[k := v]> o) (l_conf s)) (l_draws s), inr tt)
       | None => (s, inl "TypeError: Cannot set property of undefined")
       end.

(** [conf.ws2p = conf.ws2p || { uuid: nuuid.v4().slice(0,8),
    privateAccess: true, publicAccess: false }] *)
Definition default_ws2p : M Loading unit :=
  λ s, match ws2p (l_conf s) with
       | Some _ => (s, inr tt)
       | None =>
           (let! uuid := fresh_uuid in
            modify (λ s, mkLoading
              (set_ws2p (<["publicAccess" := VBool false]>
                        (<["privateAccess" := VBool true]>
                        (<["uuid" := uuid]> ∅))) (l_conf s)) (l_draws s))) s
       end.

(** [conf.ws2p.uuid = conf.ws2p.uuid || nuuid.v4().slice(0,8)] *)
Definition default_uuid : M Loading unit :=
  let! uuid := conf_get "uuid" in
  if truthy uuid then conf_set "uuid" uuid
  else let! fresh := fresh_uuid in conf_set "uuid" fresh.

(** [if (conf.ws2p[k] === undefined) conf.ws2p[k] = v] *)
Definition default_if_undefined (k : string) (v : JsVal) : M Loading unit :=
  let! cur := conf_get k in
  when (is_undefined cur) (conf_set k v).

(** [if (program[opt] !== undefined) conf.ws2p[k] = f(program[opt])] *)
Definition option_to_conf (program : gmap string JsVal) (opt k : string)
    (f : JsVal → JsVal) : M Loading unit :=
  when (negb (is_undefined (get program opt))) (conf_set k (f (get program opt))).

(** [conf.ws2p[k] = conf.ws2p[k] || []] followed by
    [conf.ws2p[k].push(String(x))].  A truthy value that is not an array
    has no [push] method. *)
Definition nodes_add (k : string) (x : JsVal) : M Loading unit :=
  let! cur := conf_get k in
  let nodes := js_or cur (VArr []) in
  conf_set k nodes;;;
  match nodes with
  | VArr l => conf_set k (VArr (l ++ [js_String x]))
  | _ => throw "TypeError: push is not a function"
  end.

(** The index of the first element of [l] equal to [x], if any
    ([Array.prototype.indexOf] compares with [===]). *)
Fixpoint array_indexOf (x : JsVal) (l : list string) : option nat :=
  match l with
  | [] => None
  | y :: l' =>
      if decide (x = VStr y) then Some 0
      else S <$> array_indexOf x l'
  end.

(** [l.splice(i, 1)] as the array it leaves. *)
Definition array_splice1 (i : nat) (l : list string) : list string :=
  take i l ++ drop (S i) l.

(** [conf.ws2p[k] = conf.ws2p[k] || []], then
    [const index = conf.ws2p[k].indexOf(x)] and
    [if (index !== -1) conf.ws2p[k].splice(index, 1)].  A non-empty string
    has [indexOf] (a substring search for [String(x)]) but no [splice];
    numbers and booleans have neither. *)
Definition nodes_rm (k : string) (x : JsVal) : M Loading unit :=
  let! cur := conf_get k in
  let nodes := js_or cur (VArr []) in
  conf_set k nodes;;;
  match nodes with
  | VArr l =>
      match array_indexOf x l with
      | Some i => conf_set k (VArr (array_splice1 i l))
      | None => ret tt
      end
  | VStr s =>
      match String.index 0 (js_String x) s with
      | Some _ => throw "TypeError: splice is not a function"
      | None => ret tt
      end
  | _ => throw "TypeError: indexOf is not a function"
  end.

Definition onLoading (program : gmap string JsVal) : M Loading unit :=
  default_ws2p;;;
  (* For config with missing value *)
  default_uuid;;;
  default_if_undefined "privateAccess" (VBool true);;;
  default_if_undefined "publicAccess" (VBool false);;;
  option_to_conf program "ws2pHost" "host" id;;;
  option_to_conf program "ws2pPort" "port" parseInt;;;
  option_to_conf program "ws2pRemotePort" "remoteport" id;;;
  option_to_conf program "ws2pRemoteHost" "remotehost" id;;;
  option_to_conf program "ws2pUpnp" "upnp" (λ _, VBool true);;;
  option_to_conf program "ws2pNoupnp" "upnp" (λ _, VBool false);;;
  option_to_conf program "ws2pMaxPrivate" "maxPrivate" id;;;
  option_to_conf program "ws2pMaxPublic" "maxPublic" id;;;
  option_to_conf program "ws2pPrivate" "privateAccess" (λ _, VBool true);;;
  option_to_conf program "ws2pPublic" "publicAccess" (λ _, VBool true);;;
  option_to_conf program "ws2pNoPrivate" "privateAccess" (λ _, VBool false);;;
  option_to_conf program "ws2pNoPublic" "publicAccess" (λ _, VBool false);;;
  (* Prefered nodes *)
  when (negb (is_undefined (get program "ws2pPreferedAdd")))
    (nodes_add "preferedNodes" (get program "ws2pPreferedAdd"));;;
  when (negb (is_undefined (get program "ws2pPreferedRm")))
    (nodes_rm "preferedNodes" (get program "ws2pPreferedRm"));;;
  (* Privileged nodes *)
  when (negb (is_undefined (get program "ws2pPrivilegedAdd")))
    (nodes_add "privilegedNodes" (get program "ws2pPrivilegedAdd"));;;
  when (negb (is_undefined (get program "ws2pPrivilegedRm")))
    (nodes_rm "privilegedNodes" (get program "ws2pPrivilegedRm"));;;
  (* Default value *)
  let! upnp := conf_get "upnp" in
  when (is_undefined upnp || is_null upnp) (conf_set "upnp" (VBool true)).

End OnLoading.


(** ** [getWrongEndpoints] *)

(** A captured group of a match: a string, or [undefined] when the group
    did not take part in the match. *)
Definition capture (g : option string) : JsVal :=
  match g with
  | Some s => VStr s
  | None => VUndef
  end.

(** [c === v] where [c] is a captured group. *)
Definition capture_strict_eq (c : option string) (v : JsVal) : bool :=
  bool_decide (capture c = v).

Section WrongEndpoints.

(** [ep.match(CommonConstants.WS2P_REGEXP)]: [None] for [null], otherwise
    the array of the match, the whole match at index 0 and the captured
    groups after it. *)
Variable WS2P_REGEXP_match : string → option (list (option string)).

(** The callback of the filter:
    [ws2pConf.ws2p && match && match[1] === ws2pConf.ws2p.uuid]. *)
Definition is_wrong_endpoint (ws2pConf : WS2PConfDTO) (ep : string) : bool :=
  match ws2p ws2pConf, WS2P_REGEXP_match ep with
  | Some o, Some groups =>
      capture_strict_eq (mjoin (groups !! 1)) (get o "uuid")
  | _, _ => false
  end.

Definition getWrongEndpoints (endpoints : list string)
    (ws2pConf : WS2PConfDTO) : list string :=
  List.filter (is_wrong_endpoint ws2pConf) endpoints.

End WrongEndpoints.

(** ** The collaborators of the facade *)

(** The mapping [getCurrentConfig] returns; the facade reads [remotehost]
    and [port]. *)
Record UPnPConfig : Type := mkUPnPConfig {
  cfg_remotehost : JsVal;
  cfg_port : JsVal
}.

(** The object [startRegular] resolves to. *)
Record Reply : Type := mkReply {
  host : JsVal;
  port : JsVal;
  available : JsVal
}.

(** The operations of [WS2PCluster], [WS2PUpnp] and [PeeringService] the
    facade calls.  Each acts on the state of its own object only and either
    returns or raises; [upnp_new n] is [new WS2PUpnp(logger)] for the n-th
    helper the facade constructs, so that the gateway may answer each
    helper differently. *)
Class Collaborators : Type := {
  Cluster : Type;
  Upnp : Type;
  Peering : Type;
  cluster_listen : JsVal → JsVal → Cluster → Cluster * option Err;
  cluster_startCrawling : Cluster → Cluster * option Err;
  cluster_stopCrawling : Cluster → Cluster * option Err;
  cluster_close : Cluster → Cluster * option Err;
  upnp_new : nat → Err + Upnp;
  upnp_startRegular : Upnp → Upnp * (Err + Reply);
  upnp_stopRegular : Upnp → Upnp * option Err;
  upnp_getCurrentConfig : Upnp → option UPnPConfig;
  peering_generateSelfPeer : WS2PConfDTO → Peering → Peering * option Err
}.

(** The calls the facade makes, as they are logged.  Helpers are named by
    their rank of construction. *)
Inductive Call : Type :=
  | Listen (h p : JsVal)
  | StartCrawling
  | StopCrawling
  | Close
  | NewUpnp (id : nat)
  | StartRegular (id : nat)
  | StopRegular (id : nat)
  | GenerateSelfPeer
  | Warn (e : Err).

#[global] Instance Call_eq_dec : EqDecision Call.
Proof. solve_decision. Defined.

(** A logged call and the error it raised, if any. *)
Abbreviation Event := (Call * option Err)%type.

(** [this.conf] is either the very object [this.server.conf] or an object
    of its own. *)
Inductive ConfRef : Type :=
  | SharedWithServer
  | Detached (c : WS2PConfDTO).

Section Facade.

Context `{Collaborators}.

(** The fields of a [WS2PAPI] instance, the objects they refer to, and the
    log of the calls made so far.  [this.cluster] is assigned once by the
    constructor from [WS2PCluster.plugOn(server)]. *)
Record World : Type := mkWorld {
  server_conf : WS2PConfDTO;
  conf : ConfRef;
  upnpAPI : option (nat * Upnp);
  cluster : Cluster;
  peering : Peering;
  created : nat;
  calls : list Event
}.

(** [this.conf] *)
Definition this_conf (w : World) : WS2PConfDTO :=
  match conf w with
  | SharedWithServer => server_conf w
  | Detached c => c
  end.

Definition set_this_conf (c : WS2PConfDTO) (w : World) : World :=
  match conf w with
  | SharedWithServer =>
      mkWorld c SharedWithServer (upnpAPI w) (cluster w) (peering w) (created w) (calls w)
  | Detached _ =>
      mkWorld (server_conf w) (Detached c) (upnpAPI w) (cluster w) (peering w) (created w) (calls w)
  end.

Definition set_upnpAPI (u : option (nat * Upnp)) (w : World) : World :=
  mkWorld (server_conf w) (conf w) u (cluster w) (peering w) (created w) (calls w).

Definition set_cluster (c : Cluster) (w : World) : World :=
  mkWorld (server_conf w) (conf w) (upnpAPI w) c (peering w) (created w) (calls w).

Definition set_peering (p : Peering) (w : World) : World :=
  mkWorld (server_conf w) (conf w) (upnpAPI w) (cluster w) p (created w) (calls w).

Definition set_created (n : nat) (w : World) : World :=
  mkWorld (server_conf w) (conf w) (upnpAPI w) (cluster w) (peering w) n (calls w).

Definition log (e : Event) (w : World) : World :=
  mkWorld (server_conf w) (conf w) (upnpAPI w) (cluster w) (peering w) (created w)
          (calls w ++ [e]).

(** What a call that returned or raised gives to its caller. *)
Definition outcome (r : option Err) : Err + unit :=
  match r with
  | Some e => inl e
  | None => inr tt
  end.

(** [await this.cluster.op(...)] *)
Definition on_cluster (c : Call) (op : Cluster → Cluster * option Err) : M World unit :=
  λ w, let '(cl, r) := op (cluster w) in
       (log (c, r) (set_cluster cl w), outcome r).

(** [this.upnpAPI.stopRegular()] *)
Definition upnpAPI_stopRegular : M World unit :=
  λ w, match upnpAPI w with
       | Some (id, u) =>
           let '(u', r) := upnp_stopRegular u in
           (log (StopRegular id, r) (set_upnpAPI (Some (id, u')) w), outcome r)
       | None => (w, inl "TypeError: Cannot read property 'stopRegular' of undefined")
       end.

(** [this.upnpAPI = new WS2PUpnp(this.logger)] *)
Definition upnpAPI_new : M World unit :=
  λ w, let id := created w in
       match upnp_new id with
       | inr u => (log (NewUpnp id, None) (set_upnpAPI (Some (id, u)) (set_created (S id) w)), inr tt)
       | inl e => (log (NewUpnp id, Some e) w, inl e)
       end.

(** [await this.upnpAPI.startRegular()] *)
Definition upnpAPI_startRegular : M World Reply :=
  λ w, match upnpAPI w with
       | Some (id, u) =>
           match upnp_startRegular u with
           | (u', inr reply) =>
               (log (StartRegular id, None) (set_upnpAPI (Some (id, u')) w), inr reply)
           | (u', inl e) =>
               (log (StartRegular id, Some e) (set_upnpAPI (Some (id, u')) w), inl e)
           end
       | None => (w, inl "TypeError: Cannot read property 'startRegular' of undefined")
       end.

(** [this.conf.ws2p.upnp = true] *)
Definition conf_upnp_true : M World unit :=
  λ w, match ws2p (this_conf w) with
       | Some o => (set_this_conf (set_ws2p (<["upnp" := VBool true]> o) (this_conf w)) w, inr tt)
       | None => (w, inl "TypeError: Cannot set property 'upnp' of undefined")
       end.

(** [await this.server.PeeringService.generateSelfPeer(this.server.conf)] *)
Definition generateSelfPeer : M World unit :=
  λ w, let '(p, r) := peering_generateSelfPeer (server_conf w) (peering w) in
       (log (GenerateSelfPeer, r) (set_peering p w), outcome r).

(** [this.logger.warn(e)] *)
Definition logger_warn (e : Err) : M World unit :=
  modify (log (Warn e, None)).

(** [this.conf.ws2p && !this.conf.ws2p.upnp && this.conf.ws2p.host
    && this.conf.ws2p.port] *)
Definition manual (c : WS2PConfDTO) : bool :=
  match ws2p c with
  | Some o => negb (truthy (get o "upnp")) && truthy (get o "host") && truthy (get o "port")
  | None => false
  end.

(** [!this.conf.ws2p || this.conf.ws2p.upnp !== false] *)
Definition upnp_wanted (c : WS2PConfDTO) : bool :=
  match ws2p c with
  | Some o => negb (is_false (get o "upnp"))
  | None => true
  end.

(** [!this.conf.ws2p || this.conf.ws2p.privateAccess] *)
Definition private_wanted (c : WS2PConfDTO) : bool :=
  match ws2p c with
  | Some o => truthy (get o "privateAccess")
  | None => true
  end.

(** The body of the [try] block of the UPnP branch. *)
Definition upnp_attempt : M World unit :=
  upnpAPI_new;;;
  let! reply := upnpAPI_startRegular in
  when (truthy (available reply))
    (* Defaults UPnP to true if not defined and available *)
    (conf_upnp_true;;;
     on_cluster (Listen (host reply) (port reply))
                (cluster_listen (host reply) (port reply));;;
     generateSelfPeer).

(** The first statement of [startService], under PUBLIC ACCESS. *)
Definition public_access : M World unit :=
  let! c := gets this_conf in
  when (ws2p_truthy c "publicAccess")
    (if manual c then
       (* MANUAL *)
       on_cluster (Listen (ws2p_field c "host") (ws2p_field c "port"))
                  (cluster_listen (ws2p_field c "host") (ws2p_field c "port"))
     else if upnp_wanted c then
       (* UPnP *)
       (let! api := gets upnpAPI in
        when (bool_decide (is_Some api)) upnpAPI_stopRegular);;;
       try_catch upnp_attempt (λ e, logger_warn e)
     else ret tt).

(** The second statement of [startService], under PRIVATE ACCESS. *)
Definition private_access : M World unit :=
  let! c := gets this_conf in
  when (private_wanted c) (on_cluster StartCrawling cluster_startCrawling).

Definition startService : M World unit :=
  public_access;;;
  private_access.

Definition stopService : M World unit :=
  (* this.cluster is always set *)
  (on_cluster StopCrawling cluster_stopCrawling;;;
   on_cluster Close cluster_close);;;
  let! api := gets upnpAPI in
  when (bool_decide (is_Some api)) upnpAPI_stopRegular.

(** [['WS2P', id, h, p].join(' ')] *)
Definition endpoint_string (id h p : JsVal) : string :=
  js_join " " [VStr "WS2P"; id; h; p].

(** [getEndpoint] only reads the state and the [async] function always
    resolves. *)
Definition getEndpoint (w : World) : string :=
  match upnpAPI w, ws2p (server_conf w) with
  | Some (_, u), Some o =>
      match upnp_getCurrentConfig u with
      | None => ""
      | Some config =>
          endpoint_string (get o "uuid") (cfg_remotehost config) (cfg_port config)
      end
  | _, _ =>
      match ws2p (server_conf w) with
      | Some o =>
          if truthy (get o "uuid") && truthy (get o "remotehost")
             && truthy (get o "remoteport")
          then endpoint_string (get o "uuid") (get o "remotehost") (get o "remoteport")
          else ""
      | None => ""
      end
  end.

(** The state of a facade just constructed: no helper, nothing logged. *)
Definition new_WS2PAPI (sc : WS2PConfDTO) (c : ConfRef) (cl : Cluster)
    (p : Peering) : World :=
  mkWorld sc c None cl p 0 [].

(** The state without the log of calls: what the facade and its
    collaborators hold. *)
Definition observable (w : World)
    : WS2PConfDTO * ConfRef * option (nat * Upnp) * Cluster * Peering * nat :=
  (server_conf w, conf w, upnpAPI w, cluster w, peering w, created w).

(** The calls logged by a computation started in [w]. *)
Definition new_calls (w w' : World) : list Event :=
  drop (length (calls w)) (calls w').

End Facade.

(** ** Sequences of calls on the facade *)


Section Runs.

Context `{Collaborators}.



End Runs.

(** Modelled from the spec: the renewal schedule of a NAT helper ([WS2PUpnp],
    lib/ws2p-upnp, is not among the sources).  By §4.3 [startRegular]
    schedules the renewal of the helper it is called on and [stopRegular]
    cancels it.  A schedule is counted from the call of [startRegular],
    whether it returned or raised, to a call of [stopRegular] that
    returned. *)
Definition schedule_step (act : list nat) (e : Event) : list nat :=
  match e with
  | (StartRegular id, _) => if bool_decide (id ∈ act) then act else act ++ [id]
  | (StopRegular id, None) => List.filter (λ i, negb (Nat.eqb i id)) act
  | _ => act
  end.

(** The helpers whose renewal schedule is active after the logged calls. *)
Definition active_schedules (t : list Event) : list nat :=
  foldl schedule_step [] t.

(** ** Collaborators as the specification describes them *)

(** Modelled from the spec: the connection cluster of §4.2 ([WS2PCluster],
    lib/WS2PCluster, is not among the sources), reduced to the crawl cycle
    and the inbound listener.  [listen] fails with a BindError when the port
    is unavailable; [startCrawling] begins the repeating cycle,
    [stopCrawling] cancels it; [close] stops the listener. *)
Record SpecCluster : Type := mkSpecCluster {
  crawling : bool;
  listening : option (JsVal * JsVal);
  unavailable : list JsVal
}.

Definition spec_listen (h p : JsVal) (c : SpecCluster) : SpecCluster * option Err :=
  if bool_decide (p ∈ unavailable c) then (c, Some "BindError")
  else (mkSpecCluster (crawling c) (Some (h, p)) (unavailable c), None).

Definition spec_startCrawling (c : SpecCluster) : SpecCluster * option Err :=
  (mkSpecCluster true (listening c) (unavailable c), None).

Definition spec_stopCrawling (c : SpecCluster) : SpecCluster * option Err :=
  (mkSpecCluster false (listening c) (unavailable c), None).

Definition spec_close (c : SpecCluster) : SpecCluster * option Err :=
  (mkSpecCluster (crawling c) None (unavailable c), None).

(** Modelled from the spec: the NAT traversal helper of §4.3 ([WS2PUpnp],
    lib/ws2p-upnp, is not among the sources).  [gateway] is the external
    host and port the gateway grants, if it grants any.  [startRegular]
    attempts the mapping once and schedules the renewal; [available = false]
    comes with an empty host and port.  [stopRegular] cancels the schedule
    and releases the mapping.  [getCurrentConfig] is the last good mapping. *)
Record SpecUpnp : Type := mkSpecUpnp {
  gateway : option (JsVal * JsVal);
  mapping : option UPnPConfig;
  renewing : bool
}.

Definition spec_startRegular (u : SpecUpnp) : SpecUpnp * (Err + Reply) :=
  match gateway u with
  | Some (h, p) =>
      (mkSpecUpnp (gateway u) (Some (mkUPnPConfig h p)) true,
       inr (mkReply h p (VBool true)))
  | None =>
      (mkSpecUpnp (gateway u) (mapping u) true,
       inr (mkReply (VStr "") (VStr "") (VBool false)))
  end.

Definition spec_stopRegular (u : SpecUpnp) : SpecUpnp * option Err :=
  (mkSpecUpnp (gateway u) None false, None).

(** Modelled from the spec: the peer directory of §6, reduced to the number
    of times the node announced itself. *)
Definition spec_generateSelfPeer (c : WS2PConfDTO) (announced : nat) : nat * option Err :=
  (S announced, None).

(** The collaborators of the specification, for the gateway answers
    [gateways]: the n-th helper constructed talks to [gateways n]. *)
Definition spec_collaborators (gateways : nat → option (JsVal * JsVal)) : Collaborators :=
  {| Cluster := SpecCluster;
     Upnp := SpecUpnp;
     Peering := nat;
     cluster_listen := spec_listen;
     cluster_startCrawling := spec_startCrawling;
     cluster_stopCrawling := spec_stopCrawling;
     cluster_close := spec_close;
     upnp_new := λ n, inr (mkSpecUpnp (gateways n) None false);
     upnp_startRegular := spec_startRegular;
     upnp_stopRegular := spec_stopRegular;
     upnp_getCurrentConfig := mapping;
     peering_generateSelfPeer := spec_generateSelfPeer |}.

(** A cluster that differs from the one above in [stopCrawling] only: it
    raises when there is no cycle to cancel.  Its [close] is the same. *)
Definition strict_stopCrawling (c : SpecCluster) : SpecCluster * option Err :=
  if crawling c then spec_stopCrawling c
  else (c, Some "Error: not crawling").

Definition strict_collaborators : Collaborators :=
  {| Cluster := SpecCluster;
     Upnp := SpecUpnp;
     Peering := nat;
     cluster_listen := spec_listen;
     cluster_startCrawling := spec_startCrawling;
     cluster_stopCrawling := strict_stopCrawling;
     cluster_close := spec_close;
     upnp_new := λ n, inr (mkSpecUpnp None None false);
     upnp_startRegular := spec_startRegular;
     upnp_stopRegular := spec_stopRegular;
     upnp_getCurrentConfig := mapping;
     peering_generateSelfPeer := spec_generateSelfPeer |}.

(** Modelled from the spec: the advertised endpoint format of §6,
    [WS2P <id> <host> <port>] with an 8-character id, a host without spaces
    and a decimal port ([CommonConstants.WS2P_REGEXP], lib/common-libs, is
    not among the sources).  The groups are the id, the host and the port. *)
Fixpoint split_spaces (cur s : string) : list string :=
  match s with
  | EmptyString => [cur]
  | String c s' =>
      if Ascii.eqb c (Ascii.ascii_of_nat 32) then cur :: split_spaces "" s'
      else split_spaces (cur +:+ String c "") s'
  end.

Definition is_digit (c : Ascii.ascii) : bool :=
  (48 <=? Ascii.nat_of_ascii c)%nat && (Ascii.nat_of_ascii c <=? 57)%nat.

Definition spec_WS2P_REGEXP_match (ep : string) : option (list (option string)) :=
  match split_spaces "" ep with
  | [tag; id; h; p] =>
      if String.eqb tag "WS2P" && (String.length id =? 8)%nat
         && negb (String.eqb h "") && negb (String.eqb p "")
         && forallb is_digit (String.list_ascii_of_string p)
      then Some [Some ep; Some id; Some h; Some p]
      else None
  | _ => None
  end.

(** ** Configurations and states used as examples *)

Definition obj (l : list (string * JsVal)) : gmap string JsVal := list_to_map l.

(** Public access over a manually configured address. *)
Definition conf_manual : WS2PConfDTO :=
  mkConf (Some (obj [("uuid", VStr "abcdef01"); ("privateAccess", VBool true);
                     ("publicAccess", VBool true); ("upnp", VBool false);
                     ("host", VStr "0.0.0.0"); ("port", VNum (SafeInt 20901 I))])) ∅.

(** Public access through UPnP, with an advertised remote address. *)
Definition conf_upnp : WS2PConfDTO :=
  mkConf (Some (obj [("uuid", VStr "abcdef01"); ("privateAccess", VBool true);
                     ("publicAccess", VBool true); ("upnp", VBool true);
                     ("remotehost", VStr "node.example.org");
                     ("remoteport", VNum (SafeInt 20901 I))])) ∅.

(** Public access requested, UPnP disabled, no listen address. *)
Definition conf_contradictory : WS2PConfDTO :=
  mkConf (Some (obj [("uuid", VStr "abcdef01"); ("privateAccess", VBool true);
                     ("publicAccess", VBool true); ("upnp", VBool false)])) ∅.

(** The same with public access not requested. *)
Definition conf_private_only : WS2PConfDTO :=
  mkConf (Some (obj [("uuid", VStr "abcdef01"); ("privateAccess", VBool true);
                     ("publicAccess", VBool false); ("upnp", VBool false)])) ∅.

Definition no_gateway (n : nat) : option (JsVal * JsVal) := None.

Definition one_gateway (n : nat) : option (JsVal * JsVal) :=
  Some (VStr "198.51.100.7", VNum (SafeInt 20902 I)).

(** A facade of the specification's collaborators, just constructed on a
    cluster for which the ports [taken] are unavailable. *)
Definition fresh_world (gateways : nat → option (JsVal * JsVal))
    (c : WS2PConfDTO) (taken : list JsVal) : @World (spec_collaborators gateways) :=
  @new_WS2PAPI (spec_collaborators gateways) c SharedWithServer
    (mkSpecCluster false None taken) 0.

Definition strict_world (c : WS2PConfDTO) : @World strict_collaborators :=
  @new_WS2PAPI strict_collaborators c SharedWithServer
    (mkSpecCluster false None []) 0.


(** An identifier source that always answers the same version-4 UUID. *)
Definition v4_constant (n : nat) : string := "0f1e2d3c-4b5a-4978-8695-a4b3c2d1e0f9".

(** ** Vocabulary of the specification *)

(** A valid NAT mapping is available: a helper exists and has a current
    configuration. *)
Definition nat_mapping_available `{Collaborators} (w : World) : bool :=
  match upnpAPI w with
  | Some (_, u) => bool_decide (is_Some (upnp_getCurrentConfig u))
  | None => false
  end.

(** A remote host and port are manually configured, together with the
    identifier: [uuid], [remotehost] and [remoteport] are set. *)
Definition manual_remote_available (c : WS2PConfDTO) : bool :=
  ws2p_truthy c "uuid" && ws2p_truthy c "remotehost" && ws2p_truthy c "remoteport".

(** A problem is surfaced to the operator by a call that logged [new] and
    gave [r] when the call raised or a warning was logged. *)
Definition surfaced (new : list Event) (r : Err + unit) : bool :=
  match r with inl _ => true | inr _ => false end
  || existsb (λ ev, match ev.1 with Warn _ => true | _ => false end) new.

(** An endpoint is own for a configuration: it matches the regular
    expression and its first group is the configuration's [uuid]. *)
Definition own_endpoint (m : string → option (list (option string)))
    (c : WS2PConfDTO) (ep : string) : Prop :=
  ∃ o groups, ws2p c = Some o ∧ m ep = Some groups
              ∧ capture (mjoin (groups !! 1)) = get o "uuid".

(** The list with the own endpoints removed and the others kept. *)
Definition without_own (m : string → option (list (option string)))
    (eps : list string) (c : WS2PConfDTO) : list string :=
  List.filter (λ ep, negb (is_wrong_endpoint m c ep)) eps.

Definition own_ep : string := "WS2P abcdef01 node.example.org 20901".
Definition foreign_ep : string := "WS2P 11111111 peer.example.org 20900".

(** The facade after [startService] when the gateway grants no mapping,
    and when it grants one. *)
Definition world_unmapped : @World (spec_collaborators no_gateway) :=
  (startService (fresh_world no_gateway conf_upnp [])).1.

Definition world_mapped : @World (spec_collaborators one_gateway) :=
  (startService (fresh_world one_gateway conf_upnp [])).1.


(** A string without a space. *)
Definition space_free (s : string) : bool :=
  forallb (λ c, negb (Ascii.eqb c (Ascii.ascii_of_nat 32)))
          (String.list_ascii_of_string s).




(** ** Invariants and specifications of computations *)

(** A step of the hook keeps the identifier when, run on a configuration
    that has a [ws2p] object, it leaves one with the same [uuid], whether
    the step returns or raises. *)
Definition keeps_uuid {A} (m : M Loading A) : Prop :=
  ∀ s o, ws2p (l_conf s) = Some o →
         ∃ o', ws2p (l_conf (m s).1) = Some o' ∧ get o' "uuid" = get o "uuid".

(** No more than one schedule is active after any prefix of the log. *)
Definition safe (t : list Event) : Prop :=
  ∀ p, p `prefix_of` t → (length (active_schedules p) ≤ 1)%nat.

Section Specifications.

Context `{Collaborators}.

(** [hoare P m Q]: run in a state satisfying [P], the computation [m]
    leaves a state and a result (returned or raised) related by [Q]. *)
Definition hoare {A} (P : World → Prop) (m : M World A)
    (Q : Err + A → World → Prop) : Prop :=
  ∀ w, P w → Q (m w).2 (m w).1.

(** [m] preserves the invariant [I], whether it returns or raises. *)
Definition preserves {A} (I : World → Prop) (m : M World A) : Prop :=
  hoare I m (λ _, I).

(** Calls that neither start nor stop a renewal schedule. *)
Definition neutral (c : Call) : Prop :=
  match c with
  | StartRegular _ | StopRegular _ => False
  | _ => True
  end.

(** An invariant that does not depend on the state of the cluster or of
    the peering service, on [upnp] in the configuration, on the number of
    helpers constructed, nor on neutral calls being logged. *)
Record stable (I : World → Prop) : Prop := {
  stable_cluster : ∀ c w, I w → I (set_cluster c w);
  stable_peering : ∀ p w, I w → I (set_peering p w);
  stable_created : ∀ n w, I w → I (set_created n w);
  stable_upnp_true : ∀ o w,
    ws2p (this_conf w) = Some o → I w →
    I (set_this_conf (set_ws2p (<["upnp" := VBool true]> o) (this_conf w)) w);
  stable_log : ∀ c r w, neutral c → I w → I (log (c, r) w)
}.

(** An invariant that, besides, depends neither on the helper nor on any
    logged call. *)
Record indifferent (I : World → Prop) : Prop := {
  indifferent_stable : stable I;
  indifferent_upnpAPI : ∀ u w, I w → I (set_upnpAPI u w);
  indifferent_log : ∀ e w, I w → I (log e w)
}.

(** No schedule is active. *)
Definition idle (w : World) : Prop :=
  safe (calls w) ∧ active_schedules (calls w) = [].


End Specifications.

(** ** [cli]: [onConfiguredExecute] *)

(** A record of the peer directory, as [server.dal.getWS2Peers()] gives
    them: the fields the command reads. *)
Record Peer : Type := mkPeer {
  pubkey : string;
  endpoints : list string
}.

(** What the command does to its environment: the calls on the server and
    the lines it prints, with the arguments given to [console.log]. *)
Inductive CliCall : Type :=
  | InitDAL
  | GetWS2Peers
  | ConsoleLog (args : list JsVal).

#[global] Instance CliCall_eq_dec : EqDecision CliCall.
Proof. solve_decision. Defined.

(** The values a [for (const p of v)] loop visits: the elements of an
    array, the characters of a string; other values are not iterable. *)
Definition js_iterate (v : JsVal) : Err + list JsVal :=
  match v with
  | VArr l => inr (VStr <$> l)
  | VStr s => inr ((λ c, VStr (String c "")) <$> String.list_ascii_of_string s)
  | _ => inl "TypeError: not iterable"
  end.

(** [conf.ws2p && conf.ws2p[k] || []] *)
Definition ws2p_list_or_empty (conf : WS2PConfDTO) (k : string) : JsVal :=
  match ws2p conf with
  | Some o => js_or (get o k) (VArr [])
  | None => VArr []
  end.

(** [ep.match(/^WS2P /)] as a condition. *)
Definition starts_with_WS2P (ep : string) : bool :=
  String.prefix "WS2P " ep.

Section Cli.

(** What [await server.initDAL()] raises, if anything, and what
    [await server.dal.getWS2Peers()] gives. *)
Variable initDAL_raises : option Err.
Variable getWS2Peers_result : Err + list Peer.

(** [JSON.stringify(v, null, ' ')] for the [ws2p] part of the
    configuration. *)
Variable JSON_stringify : option (gmap string JsVal) → JsVal.

Definition server_initDAL : M (list CliCall) unit :=
  λ s, (s ++ [InitDAL], match initDAL_raises with
                        | Some e => inl e
                        | None => inr tt
                        end).

Definition server_getWS2Peers : M (list CliCall) (list Peer) :=
  λ s, (s ++ [GetWS2Peers], getWS2Peers_result).

(** [console.log(...args)] *)
Definition console_log (args : list JsVal) : M (list CliCall) unit :=
  modify (λ s, s ++ [ConsoleLog args]).

(** [for (const x of l) { body x }] over the values [l]. *)
Fixpoint for_each {S A} (l : list A) (body : A → M S unit) : M S unit :=
  match l with
  | [] => ret tt
  | x :: l' => body x;;; for_each l' body
  end.

(** [for (const p of v) { console.log(p) }] *)
Definition log_each (v : JsVal) : M (list CliCall) unit :=
  match js_iterate v with
  | inr l => for_each l (λ p, console_log [p])
  | inl e => throw e
  end.

Definition onConfiguredExecute (conf : WS2PConfDTO) (subcmd : JsVal)
    : M (list CliCall) unit :=
  when (bool_decide (subcmd = VStr "list-nodes"))
    (* Needs the DAL plugged *)
    server_initDAL;;;
  if bool_decide (subcmd = VStr "show-conf") then
    console_log [JSON_stringify (ws2p conf)]
  else if bool_decide (subcmd = VStr "list-prefered") then
    log_each (ws2p_list_or_empty conf "preferedNodes")
  else if bool_decide (subcmd = VStr "list-privileged") then
    log_each (ws2p_list_or_empty conf "privilegedNodes")
  else if bool_decide (subcmd = VStr "list-nodes") then
    let! peers := server_getWS2Peers in
    for_each peers (λ p,
      for_each (endpoints p) (λ ep,
        when (starts_with_WS2P ep)
          (console_log [VStr (pubkey p); VStr ep])))
  else
    (* throw constants.ERRORS.CLI_CALLERR_WS2P: the module neither declares
       nor imports [constants], so evaluating the operand raises before
       anything is thrown *)
    throw "ReferenceError: constants is not defined".

End Cli.

(** The lines [list-nodes] is expected to print for a directory. *)
Definition ws2p_lines (peers : list Peer) : list CliCall :=
  p ← peers;
  ep ← List.filter starts_with_WS2P (endpoints p);
  [ConsoleLog [VStr (pubkey p); VStr ep]].

(** ** [onLoading], statement by statement, on the [ws2p] object *)

(** The state of the hook when the configuration has the [ws2p] object
    [o]. *)
Definition loading (o other : gmap string JsVal) (draws : nat) : Loading :=
  mkLoading (mkConf (Some o) other) draws.

(** [if (o[k] === undefined) o[k] = v] *)
Definition obj_default (k : string) (v : JsVal) (o : gmap string JsVal)
    : gmap string JsVal :=
  if is_undefined (get o k) then <[k := v]> o else o.

(** [if (program[opt] !== undefined) o[k] = f(program[opt])] *)
Definition obj_option (program : gmap string JsVal) (opt k : string)
    (f : JsVal → JsVal) (o : gmap string JsVal) : gmap string JsVal :=
  if is_undefined (get program opt) then o else <[k := f (get program opt)]> o.

(** Lines 45 to 59 of the hook, on the object. *)
Definition obj_scalars (parseInt : JsVal → JsVal) (program : gmap string JsVal)
    (o : gmap string JsVal) : gmap string JsVal :=
  let o := obj_default "privateAccess" (VBool true) o in
  let o := obj_default "publicAccess" (VBool false) o in
  let o := obj_option program "ws2pHost" "host" id o in
  let o := obj_option program "ws2pPort" "port" parseInt o in
  let o := obj_option program "ws2pRemotePort" "remoteport" id o in
  let o := obj_option program "ws2pRemoteHost" "remotehost" id o in
  let o := obj_option program "ws2pUpnp" "upnp" (λ _, VBool true) o in
  let o := obj_option program "ws2pNoupnp" "upnp" (λ _, VBool false) o in
  let o := obj_option program "ws2pMaxPrivate" "maxPrivate" id o in
  let o := obj_option program "ws2pMaxPublic" "maxPublic" id o in
  let o := obj_option program "ws2pPrivate" "privateAccess" (λ _, VBool true) o in
  let o := obj_option program "ws2pPublic" "publicAccess" (λ _, VBool true) o in
  let o := obj_option program "ws2pNoPrivate" "privateAccess" (λ _, VBool false) o in
  let o := obj_option program "ws2pNoPublic" "publicAccess" (λ _, VBool false) o in
  o.

(** Lines 61 to 90 of the hook: the node lists and the default of
    [upnp]. *)
Definition onLoading_nodes_and_upnp (program : gmap string JsVal)
    : M Loading unit :=
  when (negb (is_undefined (get program "ws2pPreferedAdd")))
    (nodes_add "preferedNodes" (get program "ws2pPreferedAdd"));;;
  when (negb (is_undefined (get program "ws2pPreferedRm")))
    (nodes_rm "preferedNodes" (get program "ws2pPreferedRm"));;;
  when (negb (is_undefined (get program "ws2pPrivilegedAdd")))
    (nodes_add "privilegedNodes" (get program "ws2pPrivilegedAdd"));;;
  when (negb (is_undefined (get program "ws2pPrivilegedRm")))
    (nodes_rm "privilegedNodes" (get program "ws2pPrivilegedRm"));;;
  let! upnp := conf_get "upnp" in
  when (is_undefined upnp || is_null upnp) (conf_set "upnp" (VBool true)).

(** Lines 37 to 44 of the hook: the object and the number of identifiers
    drawn after them. *)
Definition obj_init (nuuid_v4 : nat → string) (ws : option (gmap string JsVal))
    (draws : nat) : gmap string JsVal * nat :=
  let fresh n := VStr (String.substring 0 8 (nuuid_v4 n)) in
  match ws with
  | Some o =>
      if truthy (get o "uuid") then (<["uuid" := get o "uuid"]> o, draws)
      else (<["uuid" := fresh draws]> o, S draws)
  | None =>
      let o := <["publicAccess" := VBool false]>
               (<["privateAccess" := VBool true]>
               (<["uuid" := fresh draws]> ∅)) in
      if truthy (fresh draws) then (<["uuid" := fresh draws]> o, S draws)
      else (<["uuid" := fresh (S draws)]> o, S (S draws))
  end.

(** The command line options the hook reads. *)
Definition ws2p_options : list string :=
  ["ws2pHost"; "ws2pPort"; "ws2pRemotePort"; "ws2pRemoteHost"; "ws2pUpnp";
   "ws2pNoupnp"; "ws2pMaxPrivate"; "ws2pMaxPublic"; "ws2pPrivate";
   "ws2pPublic"; "ws2pNoPrivate"; "ws2pNoPublic"; "ws2pPreferedAdd";
   "ws2pPreferedRm"; "ws2pPrivilegedAdd"; "ws2pPrivilegedRm"].

(** A node list of the configuration is well formed when it is an array or
    is not set. *)
Definition list_or_unset (v : JsVal) : Prop :=
  (∃ l, v = VArr l) ∨ truthy v = false.

(** The array a node list stands for: [v || []]. *)
Definition list_of (v : JsVal) : list string :=
  match v with
  | VArr l => l
  | _ => []
  end.

(** A step of the hook maintains the property [I] of the [ws2p] object:
    whether it returns or raises, it leaves a [ws2p] object with the
    property, and changes nothing else. *)
Definition maintains {A} (I : gmap string JsVal → Prop) (m : M Loading A) : Prop :=
  ∀ o other draws, I o →
    ∃ o' r, m (loading o other draws) = (loading o' other draws, r) ∧ I o'.

(** A step of the hook returns, and maintains the property [I]. *)
Definition returns_with (I : gmap string JsVal → Prop) (m : M Loading unit) : Prop :=
  ∀ o other draws, I o →
    ∃ o', m (loading o other draws) = (loading o' other draws, inr tt) ∧ I o'.

(** The property [I] does not depend on the field [k]. *)
Definition ignores (I : gmap string JsVal → Prop) (k : string) : Prop :=
  ∀ o v, I o → I (<[k := v]> o).

(** ** Vocabulary of the further properties *)

(** A configuration with prefered nodes, one of them listed twice. *)
Definition conf_prefered : WS2PConfDTO :=
  mkConf (Some (obj [("uuid", VStr "abcdef01"); ("privateAccess", VBool true);
                     ("publicAccess", VBool false); ("upnp", VBool true);
                     ("preferedNodes", VArr ["key0"; "key1"; "key2"; "key1"])])) ∅.

(** The two node lists are well formed. *)
Definition lists_ok (o : gmap string JsVal) : Prop :=
  list_or_unset (get o "preferedNodes")
  ∧ list_or_unset (get o "privilegedNodes").

(** What [startService] may do to the configuration. *)
Definition conf_or_upnp_true `{Collaborators} (c0 : WS2PConfDTO) (w : World) : Prop :=
  this_conf w = c0
  ∨ ∃ o, ws2p c0 = Some o
         ∧ this_conf w = set_ws2p (<["upnp" := VBool true]> o) c0.


(** * Properties *)

(** ** JavaScript values *)

Lemma truthy_VStr_nonempty s : truthy (VStr s) = true ↔ s ≠ "".
Proof.
  simpl. destruct (String.eqb_spec s ""); simpl; split; congruence.
Qed.

Lemma endpoint_string_unfold id h p :
  endpoint_string id h p =
  "WS2P" +:+ " " +:+ js_join_elem id +:+ " " +:+ js_join_elem h
         +:+ " " +:+ js_join_elem p.
Proof. reflexivity. Qed.

Lemma endpoint_string_nonempty id h p : endpoint_string id h p ≠ "".
Proof. rewrite endpoint_string_unfold. discriminate. Qed.

Lemma get_insert_eq (o : gmap string JsVal) k v : get (<[k := v]> o) k = v.
Proof. unfold get. by rewrite lookup_insert_eq. Qed.

Lemma get_insert_ne (o : gmap string JsVal) k k' v :
  k ≠ k' → get (<[k := v]> o) k' = get o k'.
Proof. intros. unfold get. by rewrite lookup_insert_ne. Qed.

(** ** [beforeSave] *)

Lemma address_fields_elem k :
  k ∈ address_fields
  ↔ k = "host" ∨ k = "port" ∨ k = "remoteport" ∨ k = "remotehost".
Proof. unfold address_fields. rewrite !elem_of_cons, elem_of_nil. tauto. Qed.

Lemma omit_falsy_lookup_eq k (o : gmap string JsVal) :
  omit_falsy k o !! k = if truthy (get o k) then o !! k else None.
Proof.
  unfold omit_falsy. destruct (truthy _); [done|]. apply lookup_delete_eq.
Qed.

Lemma omit_falsy_lookup_ne k k' (o : gmap string JsVal) :
  k ≠ k' → omit_falsy k o !! k' = o !! k'.
Proof.
  intros. unfold omit_falsy. destruct (truthy _); [done|].
  by apply lookup_delete_ne.
Qed.

Lemma omit_falsy_get_ne k k' (o : gmap string JsVal) :
  k ≠ k' → get (omit_falsy k o) k' = get o k'.
Proof. intros. unfold get. by rewrite omit_falsy_lookup_ne. Qed.

Lemma omit_falsy_not_falsy k (o : gmap string JsVal) v :
  omit_falsy k o !! k = Some v → truthy v = true.
Proof.
  rewrite omit_falsy_lookup_eq. unfold get.
  destruct (o !! k) as [v'|]; simpl.
  - destruct (truthy v') eqn:Hv; [congruence | done].
  - done.
Qed.

Lemma delete_if_falsy_other k conf : other (delete_if_falsy k conf) = other conf.
Proof. unfold delete_if_falsy. by destruct (ws2p conf). Qed.

Lemma delete_if_falsy_ws2p k conf :
  ws2p (delete_if_falsy k conf) = omit_falsy k <$> ws2p conf.
Proof. unfold delete_if_falsy. by destruct (ws2p conf) eqn:Ho. Qed.

Lemma beforeSave_ws2p conf :
  ws2p (beforeSave conf)
  = (λ o, omit_falsy "remotehost" (omit_falsy "remoteport"
            (omit_falsy "port" (omit_falsy "host" o)))) <$> ws2p conf.
Proof.
  unfold beforeSave. rewrite !delete_if_falsy_ws2p.
  by destruct (ws2p conf).
Qed.

(** C8.  For every configuration, [beforeSave] leaves the properties outside
    [ws2p] alone, leaves a configuration without [ws2p] as it is, and in
    [ws2p] removes each of [host], [port], [remoteport] and [remotehost]
    exactly when its value is falsy (empty or unset), leaving every other
    property as it was; none of the four is left holding the empty
    string. *)
Theorem beforeSave_omits_empty_address_fields (conf : WS2PConfDTO) :
  other (beforeSave conf) = other conf
  ∧ match ws2p conf with
    | None => ws2p (beforeSave conf) = None
    | Some o =>
        ∃ o', ws2p (beforeSave conf) = Some o'
          ∧ ∀ k, o' !! k =
                 (if bool_decide (k ∈ address_fields)
                  then (if truthy (get o k) then o !! k else None)
                  else o !! k)
                 ∧ (if bool_decide (k ∈ address_fields)
                    then o' !! k ≠ Some (VStr "")
                    else True)
    end.
Proof.
  split; [unfold beforeSave; by rewrite !delete_if_falsy_other|].
  rewrite beforeSave_ws2p.
  destruct (ws2p conf) as [o|]; [|done].
  eexists. split; [reflexivity|]. intros k.
  destruct (decide (k = "host")) as [->|Hh];
    [|destruct (decide (k = "port")) as [->|Hp];
      [|destruct (decide (k = "remoteport")) as [->|Hrp];
        [|destruct (decide (k = "remotehost")) as [->|Hrh]]]].
  5: { rewrite bool_decide_eq_false_2 by (rewrite address_fields_elem; tauto).
       split; [|done]. by rewrite !omit_falsy_lookup_ne. }
  all: rewrite bool_decide_eq_true_2 by (rewrite address_fields_elem; tauto).
  all: split;
    [ rewrite ?omit_falsy_lookup_ne by done;
      rewrite omit_falsy_lookup_eq;
      rewrite ?omit_falsy_get_ne by done;
      rewrite ?omit_falsy_lookup_ne by done; done
    | intros Hl; rewrite ?omit_falsy_lookup_ne in Hl by done;
      by apply omit_falsy_not_falsy in Hl ].
Qed.

(** ** [getWrongEndpoints] *)

Lemma is_wrong_endpoint_own m c ep :
  is_wrong_endpoint m c ep = true ↔ own_endpoint m c ep.
Proof.
  unfold is_wrong_endpoint, own_endpoint, capture_strict_eq. split.
  - destruct (ws2p c) as [o|]; [|done].
    destruct (m ep) as [groups|]; [|done].
    intros Heq%bool_decide_eq_true. by exists o, groups.
  - intros (o & groups & -> & -> & Heq). by apply bool_decide_eq_true.
Qed.

Lemma elem_of_getWrongEndpoints m eps c ep :
  ep ∈ getWrongEndpoints m eps c ↔ ep ∈ eps ∧ own_endpoint m c ep.
Proof.
  unfold getWrongEndpoints.
  rewrite !list_elem_of_In, filter_In, is_wrong_endpoint_own. done.
Qed.

Lemma getWrongEndpoints_sublist m eps c :
  getWrongEndpoints m eps c `sublist_of` eps.
Proof.
  unfold getWrongEndpoints.
  induction eps as [|ep eps IH]; simpl; [done|].
  destruct (is_wrong_endpoint m c ep).
  - by apply sublist_skip.
  - by apply sublist_cons.
Qed.

(** C4, as the code has it.  [getWrongEndpoints] returns the own endpoints
    of the list and nothing else: an endpoint is returned exactly when it is
    in the list, matches the regular expression and carries the local
    identifier; the result keeps the order of the list; it is empty when the
    list has no own endpoint; and removing the returned endpoints from the
    list leaves the other endpoints, unchanged. *)
Theorem getWrongEndpoints_returns_own_endpoints
    (m : string → option (list (option string)))
    (eps : list string) (c : WS2PConfDTO) :
  (∀ ep, ep ∈ getWrongEndpoints m eps c ↔ ep ∈ eps ∧ own_endpoint m c ep)
  ∧ getWrongEndpoints m eps c `sublist_of` eps
  ∧ ((∀ ep, ep ∈ eps → ¬ own_endpoint m c ep) → getWrongEndpoints m eps c = [])
  ∧ List.filter (λ ep, negb (bool_decide (ep ∈ getWrongEndpoints m eps c))) eps
    = without_own m eps c.
Proof.
  split; [intros ep; apply elem_of_getWrongEndpoints|].
  split; [apply getWrongEndpoints_sublist|].
  split.
  - intros Hnone.
    destruct (getWrongEndpoints m eps c) as [|ep l] eqn:Hl; [done|].
    assert (Hin : ep ∈ getWrongEndpoints m eps c) by (rewrite Hl; left).
    apply elem_of_getWrongEndpoints in Hin as [Hin Hown].
    by destruct (Hnone ep Hin).
  - unfold without_own. apply filter_ext_in. intros ep Hin%list_elem_of_In.
    f_equal. destruct (is_wrong_endpoint m c ep) eqn:Hw.
    + apply bool_decide_eq_true, elem_of_getWrongEndpoints.
      split; [done|]. by apply is_wrong_endpoint_own.
    + apply bool_decide_eq_false. rewrite elem_of_getWrongEndpoints.
      intros [_ Hown%is_wrong_endpoint_own]. congruence.
Qed.

Lemma getWrongEndpoints_returns_own_endpoints_witness :
  getWrongEndpoints spec_WS2P_REGEXP_match [foreign_ep] conf_manual = [].
Proof.
  apply (getWrongEndpoints_returns_own_endpoints
           spec_WS2P_REGEXP_match [foreign_ep] conf_manual).
  intros ep ->%list_elem_of_singleton (o & groups & Ho & Hm & Heq).
  vm_compute in Ho, Hm. injection Ho as <-. injection Hm as <-.
  vm_compute in Heq. discriminate.
Defined.

(** C4, as stated, fails: on a list with an own and a foreign endpoint the
    function returns the own one, not the list without it, and on a list
    without own endpoints it returns the empty list, not the list. *)
Lemma getWrongEndpoints_is_not_without_own :
  getWrongEndpoints spec_WS2P_REGEXP_match [own_ep; foreign_ep] conf_manual
    = [own_ep]
  ∧ without_own spec_WS2P_REGEXP_match [own_ep; foreign_ep] conf_manual
    = [foreign_ep]
  ∧ getWrongEndpoints spec_WS2P_REGEXP_match [own_ep; foreign_ep] conf_manual
    ≠ without_own spec_WS2P_REGEXP_match [own_ep; foreign_ep] conf_manual
  ∧ getWrongEndpoints spec_WS2P_REGEXP_match [foreign_ep] conf_manual
    ≠ [foreign_ep].
Proof. vm_compute. repeat split; discriminate. Qed.

(** ** [getEndpoint] *)

(** ** The advertised endpoint, byte by byte *)








(** The decimal digits of an integer: never empty, never a space. *)
Lemma uint_text_space_free (d : Decimal.uint) :
  space_free (NilEmpty.string_of_uint d) = true.
Proof. induction d; simpl; done. Qed.

Lemma uint_text_zero_space_free (d : Decimal.uint) :
  space_free (NilZero.string_of_uint d) = true.
Proof.
  destruct d; [done|..];
    match goal with
    | |- space_free (NilZero.string_of_uint ?u) = true =>
        exact (uint_text_space_free u)
    end.
Qed.

Lemma space_free_cons (c : Ascii.ascii) (s : string) :
  space_free (String c s)
  = negb (Ascii.eqb c (Ascii.ascii_of_nat 32)) && space_free s.
Proof. reflexivity. Qed.

Lemma decimal_space_free (n : Z) : space_free (decimal n) = true.
Proof.
  unfold decimal. destruct (Z.to_int n) as [d|d].
  - apply uint_text_zero_space_free.
  - unfold NilZero.string_of_int. rewrite space_free_cons. apply uint_text_zero_space_free.
Qed.

Lemma decimal_nonempty (n : Z) : decimal n ≠ "".
Proof.
  unfold decimal. destruct (Z.to_int n) as [d|d]; [|done].
  by destruct d.
Qed.





(** C2, as the code has it.  [getEndpoint] returns the empty string exactly
    when the server's configuration has no [ws2p], or a helper exists and
    has no current mapping, or no helper exists and one of [uuid],
    [remotehost], [remoteport] is empty or unset.  When no helper exists and
    the three are set, it returns the advertised string, which is not
    empty. *)
Theorem getEndpoint_empty_iff `{Collaborators} (w : World) :
  (getEndpoint w = "" ↔
     ws2p (server_conf w) = None
     ∨ (∃ id u, upnpAPI w = Some (id, u) ∧ upnp_getCurrentConfig u = None)
     ∨ (upnpAPI w = None ∧ manual_remote_available (server_conf w) = false))
  ∧ (upnpAPI w = None →
     manual_remote_available (server_conf w) = true →
     getEndpoint w ≠ ""
     ∧ ∃ o, ws2p (server_conf w) = Some o
            ∧ getEndpoint w = endpoint_string (get o "uuid") (get o "remotehost")
                                              (get o "remoteport")).
Proof.
  unfold getEndpoint, manual_remote_available, ws2p_truthy.
  destruct (upnpAPI w) as [[id u]|] eqn:Hu;
    destruct (ws2p (server_conf w)) as [o|] eqn:Ho.
  - split; [|done].
    destruct (upnp_getCurrentConfig u) as [[h p]|] eqn:Hc.
    + split; [by intros ?%endpoint_string_nonempty|].
      intros [?|[(? & ? & [= <- <-] & ?)|[? _]]]; congruence.
    + split; [|done]. intros _. right. left. by exists id, u.
  - split; [|done]. split; [by left | done].
  - destruct (truthy (get o "uuid") && truthy (get o "remotehost")
              && truthy (get o "remoteport")) eqn:Ht.
    + split.
      * split; [by intros ?%endpoint_string_nonempty|].
        intros [?|[(? & ? & ? & ?)|[_ ?]]]; congruence.
      * intros _ _. split; [apply endpoint_string_nonempty|]. by exists o.
    + split; [|done]. split; [|done]. intros _. right. right. done.
  - split; [|done]. split; [by left | done].
Qed.

Lemma getEndpoint_empty_iff_witness :
  getEndpoint (fresh_world no_gateway conf_upnp []) ≠ "".
Proof.
  apply (proj2 (getEndpoint_empty_iff (fresh_world no_gateway conf_upnp [])));
    reflexivity.
Defined.

(** C2, as stated, fails: after a start through UPnP on a gateway that
    grants no mapping, [uuid], [remotehost] and [remoteport] are set and no
    mapping is available, yet [getEndpoint] returns the empty string. *)
Lemma getEndpoint_empty_with_remote_address_set :
  manual_remote_available (server_conf world_unmapped) = true
  ∧ nat_mapping_available world_unmapped = false
  ∧ getEndpoint world_unmapped = ""
  ∧ ¬ (getEndpoint world_unmapped = ""
       ↔ nat_mapping_available world_unmapped = false
         ∧ manual_remote_available (server_conf world_unmapped) = false).
Proof.
  split; [reflexivity|]. split; [reflexivity|]. split; [reflexivity|].
  intros [Himp _]. by destruct (Himp eq_refl) as [_ ?].
Qed.

(** ** [onLoading] *)

Lemma bind_run {S A B} (m : M S A) (k : A → M S B) s :
  bind m k s = match m s with
               | (s', inr a) => k a s'
               | (s', inl e) => (s', inl e)
               end.
Proof. reflexivity. Qed.

Lemma substring_prefix_length (n : nat) (s : string) :
  (n ≤ String.length s)%nat → String.length (String.substring 0 n s) = n.
Proof.
  revert s. induction n as [|n IH]; intros s Hn.
  - by destruct s.
  - destruct s as [|c s]; simpl in *; [lia|]. rewrite IH; lia.
Qed.

Lemma keeps_uuid_ret {A} (a : A) : keeps_uuid (ret a).
Proof. intros s o Ho. by exists o. Qed.

Lemma keeps_uuid_throw {A} e : keeps_uuid (@throw Loading A e).
Proof. intros s o Ho. by exists o. Qed.

Lemma keeps_uuid_bind {A B} (m : M Loading A) (k : A → M Loading B) :
  keeps_uuid m → (∀ a, keeps_uuid (k a)) → keeps_uuid (bind m k).
Proof.
  intros Hm Hk s o Ho. rewrite bind_run.
  destruct (Hm s o Ho) as (o1 & Ho1 & Hu1).
  destruct (m s) as [s1 [e|a]]; simpl in *.
  - by exists o1.
  - destruct (Hk a s1 o1 Ho1) as (o2 & Ho2 & Hu2).
    exists o2. split; [done | congruence].
Qed.

Lemma keeps_uuid_when b (m : M Loading unit) :
  keeps_uuid m → keeps_uuid (when b m).
Proof. destruct b; [done | intros _; apply keeps_uuid_ret]. Qed.

Lemma keeps_uuid_conf_get k : keeps_uuid (conf_get k).
Proof. intros s o Ho. unfold conf_get. rewrite Ho. by exists o. Qed.

Lemma keeps_uuid_conf_set k v : k ≠ "uuid" → keeps_uuid (conf_set k v).
Proof.
  intros Hk s o Ho. unfold conf_set. rewrite Ho. simpl.
  eexists. split; [done|]. by apply get_insert_ne.
Qed.

Lemma keeps_uuid_default_if_undefined k v :
  k ≠ "uuid" → keeps_uuid (default_if_undefined k v).
Proof.
  intros Hk. apply keeps_uuid_bind; [apply keeps_uuid_conf_get|].
  intros cur. by apply keeps_uuid_when, keeps_uuid_conf_set.
Qed.

Lemma keeps_uuid_option_to_conf program opt k f :
  k ≠ "uuid" → keeps_uuid (option_to_conf program opt k f).
Proof. intros Hk. by apply keeps_uuid_when, keeps_uuid_conf_set. Qed.

Lemma keeps_uuid_nodes_add k x : k ≠ "uuid" → keeps_uuid (nodes_add k x).
Proof.
  intros Hk. apply keeps_uuid_bind; [apply keeps_uuid_conf_get|].
  intros cur. apply keeps_uuid_bind; [by apply keeps_uuid_conf_set|].
  intros _. destruct (js_or cur (VArr [])); try apply keeps_uuid_throw.
  by apply keeps_uuid_conf_set.
Qed.

Lemma keeps_uuid_nodes_rm k x : k ≠ "uuid" → keeps_uuid (nodes_rm k x).
Proof.
  intros Hk. apply keeps_uuid_bind; [apply keeps_uuid_conf_get|].
  intros cur. apply keeps_uuid_bind; [by apply keeps_uuid_conf_set|].
  intros _. destruct (js_or cur (VArr [])); try apply keeps_uuid_throw.
  - destruct (String.index _ _ _);
      [apply keeps_uuid_throw | apply keeps_uuid_ret].
  - destruct (array_indexOf _ _);
      [by apply keeps_uuid_conf_set | apply keeps_uuid_ret].
Qed.

Create HintDb keeps_uuid.
#[local] Hint Resolve keeps_uuid_ret keeps_uuid_conf_get keeps_uuid_when : keeps_uuid.
#[local] Hint Extern 1 (keeps_uuid (conf_set _ _)) =>
  apply keeps_uuid_conf_set; discriminate : keeps_uuid.
#[local] Hint Extern 1 (keeps_uuid (default_if_undefined _ _)) =>
  apply keeps_uuid_default_if_undefined; discriminate : keeps_uuid.
#[local] Hint Extern 1 (keeps_uuid (option_to_conf _ _ _ _)) =>
  apply keeps_uuid_option_to_conf; discriminate : keeps_uuid.
#[local] Hint Extern 1 (keeps_uuid (nodes_add _ _)) =>
  apply keeps_uuid_nodes_add; discriminate : keeps_uuid.
#[local] Hint Extern 1 (keeps_uuid (nodes_rm _ _)) =>
  apply keeps_uuid_nodes_rm; discriminate : keeps_uuid.

Ltac keeps_uuid_steps :=
  repeat (apply keeps_uuid_bind; [|intros ?]); auto with keeps_uuid.

(** The two statements that may write [uuid]: what they leave. *)
Lemma default_ws2p_run v4 conf draws :
  default_ws2p v4 (mkLoading conf draws)
  = match ws2p conf with
    | Some _ => (mkLoading conf draws, inr tt)
    | None =>
        (mkLoading (set_ws2p (<["publicAccess" := VBool false]>
                             (<["privateAccess" := VBool true]>
                             (<["uuid" := VStr (String.substring 0 8 (v4 draws))]> ∅)))
                             conf) (S draws), inr tt)
    end.
Proof. unfold default_ws2p. simpl. by destruct (ws2p conf). Qed.

Lemma default_uuid_run v4 conf draws o :
  ws2p conf = Some o →
  ∃ o' draws',
    default_uuid v4 (mkLoading conf draws)
    = (mkLoading (set_ws2p o' conf) draws', inr tt)
    ∧ get o' "uuid"
      = if truthy (get o "uuid") then get o "uuid"
        else VStr (String.substring 0 8 (v4 draws)).
Proof.
  intros Ho. unfold default_uuid. rewrite bind_run. unfold conf_get at 1.
  simpl. rewrite Ho. destruct (truthy (get o "uuid")) eqn:Ht.
  - unfold conf_set. simpl. rewrite Ho. eexists _, _. split; [done|].
    apply get_insert_eq.
  - rewrite bind_run. unfold fresh_uuid, conf_set. simpl. rewrite Ho.
    eexists _, _. split; [done|]. apply get_insert_eq.
Qed.

(** C9.  [onLoading] always leaves a configuration with a [ws2p] object.
    When the configuration came with an identifier ([ws2p.uuid] set and not
    empty), the identifier is the same afterwards, on every path of the hook,
    including those that raise.  Otherwise the identifier afterwards is the
    first 8 characters of a newly drawn UUID, 8 characters long as soon as
    [node-uuid] returns strings of at least 8 characters. *)
Theorem onLoading_uuid_stable (nuuid_v4 : nat → string) (parseInt : JsVal → JsVal)
    (program : gmap string JsVal) (conf : WS2PConfDTO) (draws : nat) :
  (∀ n, (8 ≤ String.length (nuuid_v4 n))%nat) →
  ∃ o', ws2p (l_conf (onLoading nuuid_v4 parseInt program (mkLoading conf draws)).1)
        = Some o'
    ∧ if ws2p_truthy conf "uuid"
      then get o' "uuid" = ws2p_field conf "uuid"
      else ∃ fresh, get o' "uuid" = VStr fresh
                    ∧ fresh = String.substring 0 8 (nuuid_v4 draws)
                    ∧ String.length fresh = 8.
Proof.
  intros Hv4. unfold onLoading.
  rewrite bind_run, default_ws2p_run.
  assert (Hfresh : ∀ d, truthy (VStr (String.substring 0 8 (nuuid_v4 d))) = true).
  { intros d. apply truthy_VStr_nonempty. intros Hempty.
    pose proof (substring_prefix_length 8 (nuuid_v4 d) (Hv4 d)) as Hlen.
    rewrite Hempty in Hlen. discriminate. }
  match goal with
  | |- context [bind (default_uuid _) (λ _, ?rest)] =>
      assert (Hrest : keeps_uuid rest) by keeps_uuid_steps
  end.
  unfold ws2p_truthy, ws2p_field.
  destruct (ws2p conf) as [o|] eqn:Ho.
  - rewrite bind_run.
    destruct (default_uuid_run nuuid_v4 conf draws o Ho) as (o1 & d1 & -> & Hu1).
    destruct (Hrest (mkLoading (set_ws2p o1 conf) d1) o1 eq_refl) as (o2 & Ho2 & Hu2).
    exists o2. split; [done|]. rewrite Hu2, Hu1.
    destruct (truthy (get o "uuid")); [done|].
    eexists. split; [done|]. split; [done|].
    by apply substring_prefix_length.
  - rewrite bind_run.
    match goal with |- context [set_ws2p ?o conf] => set (o0 := o) end.
    destruct (default_uuid_run nuuid_v4 (set_ws2p o0 conf) (S draws) o0 eq_refl)
      as (o1 & d1 & -> & Hu1).
    destruct (Hrest (mkLoading (set_ws2p o1 (set_ws2p o0 conf)) d1) o1 eq_refl)
      as (o2 & Ho2 & Hu2).
    exists o2. split; [done|]. rewrite Hu2, Hu1. subst o0.
    rewrite get_insert_ne, get_insert_ne, get_insert_eq by done.
    rewrite Hfresh. eexists. split; [done|]. split; [done|].
    by apply substring_prefix_length.
Qed.

Lemma onLoading_uuid_stable_witness :
  ∃ o', ws2p (l_conf (onLoading v4_constant id ∅ (mkLoading conf_manual 0)).1)
        = Some o'
    ∧ get o' "uuid" = VStr "abcdef01".
Proof.
  apply (onLoading_uuid_stable v4_constant id ∅ conf_manual 0).
  intros n. vm_compute. lia.
Defined.

(** ** The facade: running its methods *)

Section FacadeRuns.

Context `{Collaborators}.

Lemma on_cluster_run c op (w : World) :
  on_cluster c op w
  = (log (c, (op (cluster w)).2) (set_cluster (op (cluster w)).1 w),
     outcome (op (cluster w)).2).
Proof. unfold on_cluster. by destruct (op (cluster w)). Qed.

Lemma new_calls_app (w w' : World) new :
  calls w' = calls w ++ new → new_calls w w' = new.
Proof. intros Hc. unfold new_calls. by rewrite Hc, drop_app_length. Qed.

Lemma private_access_run (w : World) :
  private_access w
  = if private_wanted (this_conf w)
    then on_cluster StartCrawling cluster_startCrawling w
    else (w, inr tt).
Proof. unfold private_access. rewrite bind_run. simpl. by destruct (private_wanted _). Qed.

(** Public access requested, UPnP disabled and no usable listen address:
    the first statement of [startService] does nothing. *)
Lemma public_access_contradictory (w : World) o :
  ws2p (this_conf w) = Some o →
  get o "upnp" = VBool false →
  truthy (get o "host") && truthy (get o "port") = false →
  public_access w = (w, inr tt).
Proof.
  intros Ho Hupnp Haddr. unfold public_access. rewrite bind_run. simpl.
  unfold ws2p_truthy, manual, upnp_wanted. rewrite Ho, Hupnp. simpl.
  rewrite Haddr. by destruct (truthy (get o "publicAccess")).
Qed.

Lemma hoare_ret {A} P (a : A) (Q : Err + A → World → Prop) :
  (∀ w, P w → Q (inr a) w) → hoare P (ret a) Q.
Proof. intros HQ w HP. by apply HQ. Qed.

Lemma hoare_gets {A} P (f : World → A) (Q : Err + A → World → Prop) :
  (∀ w, P w → Q (inr (f w)) w) → hoare P (gets f) Q.
Proof. intros HQ w HP. by apply HQ. Qed.

Lemma hoare_bind {A B} P (m : M World A) (k : A → M World B) Q1 Q :
  hoare P m Q1 →
  (∀ e w, Q1 (inl e) w → Q (inl e) w) →
  (∀ a, hoare (Q1 (inr a)) (k a) Q) →
  hoare P (bind m k) Q.
Proof.
  intros Hm He Hk w HP. rewrite bind_run. specialize (Hm w HP).
  destruct (m w) as [w1 [e|a]]; simpl in *.
  - by apply He.
  - by apply Hk.
Qed.

Lemma hoare_try_catch {A} P (m : M World A) (h : Err → M World A) Q1 Q :
  hoare P m Q1 →
  (∀ a w, Q1 (inr a) w → Q (inr a) w) →
  (∀ e, hoare (Q1 (inl e)) (h e) Q) →
  hoare P (try_catch m h) Q.
Proof.
  intros Hm Ha Hh w HP. unfold try_catch. specialize (Hm w HP).
  destruct (m w) as [w1 [e|a]]; simpl in *.
  - by apply Hh.
  - by apply Ha.
Qed.

Lemma hoare_when P b (m : M World unit) Q :
  (b = true → hoare P m Q) →
  (b = false → ∀ w, P w → Q (inr tt) w) →
  hoare P (when b m) Q.
Proof. destruct b; intros Ht Hf; [by apply Ht | intros w HP; by apply Hf]. Qed.


Lemma preserves_bind {A B} I (m : M World A) (k : A → M World B) :
  preserves I m → (∀ a, preserves I (k a)) → preserves I (bind m k).
Proof. intros Hm Hk. by eapply hoare_bind; [exact Hm| |]. Qed.

Lemma preserves_try_catch {A} I (m : M World A) (h : Err → M World A) :
  preserves I m → (∀ e, preserves I (h e)) → preserves I (try_catch m h).
Proof. intros Hm Hh. by eapply hoare_try_catch; [exact Hm| |]. Qed.

Lemma preserves_when I b (m : M World unit) :
  preserves I m → preserves I (when b m).
Proof. intros Hm. by apply hoare_when. Qed.

Lemma preserves_ret {A} I (a : A) : preserves I (ret a).
Proof. by apply hoare_ret. Qed.

Lemma preserves_gets {A} I (f : World → A) : preserves I (gets f).
Proof. by apply hoare_gets. Qed.

Lemma preserves_on_cluster I c op :
  stable I → neutral c → preserves I (on_cluster c op).
Proof.
  intros HI Hc w Hw. rewrite on_cluster_run. simpl.
  by apply stable_log, stable_cluster.
Qed.

Lemma preserves_generateSelfPeer I : stable I → preserves I generateSelfPeer.
Proof.
  intros HI w Hw. unfold generateSelfPeer.
  destruct (peering_generateSelfPeer _ _) as [p r]. simpl.
  by apply stable_log, stable_peering.
Qed.

Lemma preserves_logger_warn I e : stable I → preserves I (logger_warn e).
Proof. intros HI w Hw. simpl. by apply stable_log. Qed.

Lemma preserves_conf_upnp_true I : stable I → preserves I conf_upnp_true.
Proof.
  intros HI w Hw. unfold conf_upnp_true.
  destruct (ws2p (this_conf w)) as [o|] eqn:Ho; simpl; [|done].
  by apply stable_upnp_true.
Qed.

Lemma preserves_upnpAPI_stopRegular I :
  indifferent I → preserves I upnpAPI_stopRegular.
Proof.
  intros HI w Hw. unfold upnpAPI_stopRegular.
  destruct (upnpAPI w) as [[id u]|]; [|done].
  destruct (upnp_stopRegular u) as [u' r]. simpl.
  by apply indifferent_log, indifferent_upnpAPI.
Qed.

Lemma preserves_upnpAPI_new I : indifferent I → preserves I upnpAPI_new.
Proof.
  intros HI w Hw. unfold upnpAPI_new.
  destruct (upnp_new (created w)) as [e|u]; simpl.
  - by apply indifferent_log.
  - apply indifferent_log, indifferent_upnpAPI; [done..|].
    by apply stable_created; [apply indifferent_stable|].
Qed.

Lemma preserves_upnpAPI_startRegular I :
  indifferent I → preserves I upnpAPI_startRegular.
Proof.
  intros HI w Hw. unfold upnpAPI_startRegular.
  destruct (upnpAPI w) as [[id u]|]; [|done].
  destruct (upnp_startRegular u) as [u' [e|reply]]; simpl;
    by apply indifferent_log, indifferent_upnpAPI.
Qed.

(** The tail of the UPnP attempt, once [startRegular] has answered. *)
Lemma preserves_mapped I reply :
  stable I →
  preserves I
    (when (truthy (available reply))
       (conf_upnp_true;;;
        on_cluster (Listen (host reply) (port reply))
                   (cluster_listen (host reply) (port reply));;;
        generateSelfPeer)).
Proof.
  intros HI. apply preserves_when.
  apply preserves_bind; [by apply preserves_conf_upnp_true|]. intros _.
  apply preserves_bind; [by apply preserves_on_cluster|]. intros _.
  by apply preserves_generateSelfPeer.
Qed.

(** The [try] block with its [catch]. *)
Lemma preserves_guarded_attempt I :
  indifferent I → preserves I (try_catch upnp_attempt (λ e, logger_warn e)).
Proof.
  intros HI. pose proof (indifferent_stable I HI) as HS.
  apply preserves_try_catch.
  - unfold upnp_attempt.
    apply preserves_bind; [by apply preserves_upnpAPI_new|]. intros _.
    apply preserves_bind; [by apply preserves_upnpAPI_startRegular|].
    intros reply. by apply preserves_mapped.
  - intros e. by apply preserves_logger_warn.
Qed.

Lemma preserves_public_access I : indifferent I → preserves I public_access.
Proof.
  intros HI. pose proof (indifferent_stable I HI) as HS.
  unfold public_access.
  apply preserves_bind; [apply preserves_gets|]. intros c.
  apply preserves_when.
  destruct (manual c); [by apply preserves_on_cluster|].
  destruct (upnp_wanted c); [|apply preserves_ret].
  apply preserves_bind.
  { apply preserves_bind; [apply preserves_gets|]. intros api.
    by apply preserves_when, preserves_upnpAPI_stopRegular. }
  intros _. by apply preserves_guarded_attempt.
Qed.

Lemma preserves_private_access I : stable I → preserves I private_access.
Proof.
  intros HI. unfold private_access.
  apply preserves_bind; [apply preserves_gets|]. intros c.
  by apply preserves_when, preserves_on_cluster.
Qed.

(** The calls already logged stay, in their order. *)
Lemma indifferent_prefix t : indifferent (λ w, t `prefix_of` calls w).
Proof.
  split; [split|..]; try done.
  - intros o w Ho. unfold set_this_conf. by destruct (conf w).
  - intros c r w _ Hp. simpl. by apply prefix_app_r.
  - intros e w Hp. simpl. by apply prefix_app_r.
Qed.

Lemma private_wanted_upnp_true (c : WS2PConfDTO) o :
  ws2p c = Some o →
  private_wanted (set_ws2p (<["upnp" := VBool true]> o) c) = private_wanted c.
Proof.
  intros Ho. unfold private_wanted. simpl. rewrite Ho.
  by rewrite get_insert_ne.
Qed.

Lemma this_conf_set_this_conf c (w : World) : this_conf (set_this_conf c w) = c.
Proof. unfold set_this_conf, this_conf. by destruct (conf w). Qed.

(** Whether private access is wanted does not change. *)
Lemma indifferent_private_wanted b :
  indifferent (λ w, private_wanted (this_conf w) = b).
Proof.
  split; [split|..]; try done.
  intros o w Ho Hb. by rewrite this_conf_set_this_conf, private_wanted_upnp_true.
Qed.

Lemma public_access_calls (w : World) :
  ∃ new, calls (public_access w).1 = calls w ++ new.
Proof.
  by apply (preserves_public_access _ (indifferent_prefix (calls w)) w).
Qed.

Lemma public_access_private_wanted (w : World) :
  private_wanted (this_conf (public_access w).1) = private_wanted (this_conf w).
Proof.
  by apply (preserves_public_access _ (indifferent_private_wanted _) w).
Qed.

End FacadeRuns.

(** ** [startService]: private access after the public attempt *)

Section StartService.

Context `{Collaborators}.

Lemma try_catch_warn_returns (m : M World unit) (w : World) :
  (try_catch m logger_warn w).2 = inr tt.
Proof. unfold try_catch. by destruct (m w) as [w1 [e|[]]]. Qed.

(** The branch taken under PUBLIC ACCESS. *)
Lemma public_access_manual (w : World) :
  ws2p_truthy (this_conf w) "publicAccess" = true →
  manual (this_conf w) = true →
  public_access w
  = on_cluster (Listen (ws2p_field (this_conf w) "host")
                       (ws2p_field (this_conf w) "port"))
               (cluster_listen (ws2p_field (this_conf w) "host")
                               (ws2p_field (this_conf w) "port")) w.
Proof.
  intros Hpub Hman. unfold public_access. rewrite bind_run. simpl.
  by rewrite Hpub, Hman.
Qed.

Lemma public_access_upnp (w : World) :
  ws2p_truthy (this_conf w) "publicAccess" = true →
  manual (this_conf w) = false →
  upnp_wanted (this_conf w) = true →
  public_access w
  = ((let! api := gets upnpAPI in
      when (bool_decide (is_Some api)) upnpAPI_stopRegular);;;
     try_catch upnp_attempt (λ e, logger_warn e)) w.
Proof.
  intros Hpub Hman Hupnp. unfold public_access. rewrite bind_run. simpl.
  by rewrite Hpub, Hman, Hupnp.
Qed.

Lemma public_access_off (w : World) :
  ws2p_truthy (this_conf w) "publicAccess" = false →
  public_access w = (w, inr tt).
Proof.
  intros Hpub. unfold public_access. rewrite bind_run. simpl.
  by rewrite Hpub.
Qed.

(** The only errors the public attempt lets through: that of the manual
    [listen], and that of stopping the helper of a previous start. *)
Lemma public_access_returns (w : World) :
  (ws2p_truthy (this_conf w) "publicAccess" = true →
   manual (this_conf w) = true →
   (cluster_listen (ws2p_field (this_conf w) "host")
                   (ws2p_field (this_conf w) "port") (cluster w)).2 = None) →
  (ws2p_truthy (this_conf w) "publicAccess" = true →
   manual (this_conf w) = false →
   upnp_wanted (this_conf w) = true →
   ∀ id u, upnpAPI w = Some (id, u) → (upnp_stopRegular u).2 = None) →
  (public_access w).2 = inr tt.
Proof.
  intros Hlisten Hstop.
  destruct (ws2p_truthy (this_conf w) "publicAccess") eqn:Hpub;
    [|by rewrite public_access_off].
  destruct (manual (this_conf w)) eqn:Hman.
  { rewrite public_access_manual, on_cluster_run by done. simpl.
    by rewrite Hlisten. }
  destruct (upnp_wanted (this_conf w)) eqn:Hupnp.
  - rewrite public_access_upnp by done.
    rewrite bind_run, bind_run. simpl.
    destruct (upnpAPI w) as [[id u]|] eqn:Hu; simpl.
    + unfold upnpAPI_stopRegular. rewrite Hu.
      specialize (Hstop eq_refl eq_refl eq_refl id u eq_refl).
      destruct (upnp_stopRegular u) as [u' r]. simpl in *. subst r. simpl.
      apply try_catch_warn_returns.
    + apply try_catch_warn_returns.
  - unfold public_access. rewrite bind_run. simpl.
    by rewrite Hpub, Hman, Hupnp.
Qed.

(** The sibling path: with private access enabled, whenever the manual
    [listen], if it is the branch taken, returns, and stopping the helper
    of a previous start, if the UPnP branch is taken and there is one,
    returns, [startService] ends by invoking [startCrawling] and gives what
    that call gives -- in particular after any failure inside the UPnP
    attempt (constructing the helper, [startRegular], [listen] on the
    mapped address or [generateSelfPeer] raising, or no mapping being
    available). *)
Lemma startService_reaches_private_access (w : World) (o : gmap string JsVal) :
  ws2p (this_conf w) = Some o →
  truthy (get o "privateAccess") = true →
  (truthy (get o "publicAccess") = true →
   manual (this_conf w) = true →
   (cluster_listen (get o "host") (get o "port") (cluster w)).2 = None) →
  (truthy (get o "publicAccess") = true →
   manual (this_conf w) = false →
   upnp_wanted (this_conf w) = true →
   ∀ id u, upnpAPI w = Some (id, u) → (upnp_stopRegular u).2 = None) →
  ∃ pre w1,
    calls w1 = calls w ++ pre
    ∧ startService w
      = (log (StartCrawling, (cluster_startCrawling (cluster w1)).2)
             (set_cluster (cluster_startCrawling (cluster w1)).1 w1),
         outcome (cluster_startCrawling (cluster w1)).2).
Proof.
  intros Ho Hpriv Hlisten Hstop.
  assert (Hfield : ∀ k, ws2p_field (this_conf w) k = get o k)
    by (intros k; unfold ws2p_field; by rewrite Ho).
  assert (Hpub : ws2p_truthy (this_conf w) "publicAccess"
                 = truthy (get o "publicAccess"))
    by (unfold ws2p_truthy; by rewrite Ho).
  assert (Hret : (public_access w).2 = inr tt).
  { apply public_access_returns; rewrite Hpub, ?Hfield; done. }
  destruct (public_access_calls w) as [pre Hpre].
  pose proof (public_access_private_wanted w) as Hwanted.
  unfold startService. rewrite bind_run.
  destruct (public_access w) as [w1 r1]. simpl in *. subst r1.
  rewrite private_access_run, Hwanted.
  unfold private_wanted. rewrite Ho, Hpriv.
  rewrite on_cluster_run. by exists pre, w1.
Qed.

(** C1.  What the code does where the claim fails: private access is
    enabled, public access takes the manual branch and [listen] on the
    configured host and port raises [e].  The [await] of line 194 is
    outside any [try], so [startService] rejects with [e] and stops there:
    the only call made is that [listen], the cluster is left as [listen]
    left it, and line 224 is not reached -- [startCrawling] is never run,
    where the UPnP path of lines 204 to 215 catches, warns and goes on to
    private access. *)
Theorem startService_manual_listen_error (w : World) (o : gmap string JsVal)
    (e : Err) :
  ws2p (this_conf w) = Some o →
  truthy (get o "privateAccess") = true →
  truthy (get o "publicAccess") = true →
  manual (this_conf w) = true →
  (cluster_listen (get o "host") (get o "port") (cluster w)).2 = Some e →
  startService w
  = (log (Listen (get o "host") (get o "port"), Some e)
         (set_cluster
            (cluster_listen (get o "host") (get o "port") (cluster w)).1 w),
     inl e).
Proof.
  intros Ho _ Hp Hman He.
  assert (Hfield : ∀ k, ws2p_field (this_conf w) k = get o k)
    by (intros k; unfold ws2p_field; by rewrite Ho).
  unfold startService. rewrite bind_run.
  rewrite public_access_manual
    by (done || (unfold ws2p_truthy; by rewrite Ho)).
  rewrite !Hfield, on_cluster_run, He. done.
Qed.

(** C3, as the code has it.  With public access requested, UPnP set to
    [false] and no host or no port, [startService] is its second statement
    alone: it invokes [startCrawling] when private access is wanted and
    makes no other call, logs no warning, and raises only what
    [startCrawling] raises. *)
Theorem startService_contradictory_conf_silent (w : World)
    (o : gmap string JsVal) :
  ws2p (this_conf w) = Some o →
  truthy (get o "publicAccess") = true →
  get o "upnp" = VBool false →
  truthy (get o "host") && truthy (get o "port") = false →
  startService w = private_access w
  ∧ calls (startService w).1
    = calls w ++ (if truthy (get o "privateAccess")
                  then [(StartCrawling, (cluster_startCrawling (cluster w)).2)]
                  else [])
  ∧ (startService w).2
    = (if truthy (get o "privateAccess")
       then outcome (cluster_startCrawling (cluster w)).2
       else inr tt).
Proof.
  intros Ho Hpub Hupnp Haddr.
  assert (Hstart : startService w = private_access w).
  { unfold startService. rewrite bind_run.
    by rewrite (public_access_contradictory w o). }
  split; [done|]. rewrite Hstart, private_access_run.
  unfold private_wanted. rewrite Ho.
  destruct (truthy (get o "privateAccess")).
  - rewrite on_cluster_run. done.
  - simpl. by rewrite app_nil_r.
Qed.

End StartService.

Lemma startService_manual_listen_error_witness :
  (startService (fresh_world no_gateway conf_manual [VNum (SafeInt 20901 I)])).2
  = inl "BindError"
  ∧ calls (startService (fresh_world no_gateway conf_manual
                           [VNum (SafeInt 20901 I)])).1
    = [(Listen (VStr "0.0.0.0") (VNum (SafeInt 20901 I)), Some "BindError")]
  ∧ crawling (cluster (startService (fresh_world no_gateway conf_manual
                                       [VNum (SafeInt 20901 I)])).1) = false.
Proof.
  rewrite (startService_manual_listen_error
             (fresh_world no_gateway conf_manual [VNum (SafeInt 20901 I)])
             _ "BindError" eq_refl eq_refl eq_refl eq_refl eq_refl).
  repeat split.
Defined.

Lemma startService_contradictory_conf_silent_witness :
  startService (fresh_world no_gateway conf_contradictory [])
  = private_access (fresh_world no_gateway conf_contradictory []).
Proof.
  refine (proj1 (startService_contradictory_conf_silent
                   (fresh_world no_gateway conf_contradictory [])
                   _ eq_refl _ _ _)); reflexivity.
Defined.

(** C3, as stated, fails: public access is requested with UPnP disabled and
    no listen address; [startService] returns normally, its only call is
    [startCrawling], no warning is logged, and the calls are those made for
    the same configuration with public access not requested. *)
Lemma contradictory_conf_not_surfaced :
  ws2p_truthy conf_contradictory "publicAccess" = true
  ∧ ws2p_field conf_contradictory "upnp" = VBool false
  ∧ ws2p_field conf_contradictory "host" = VUndef
  ∧ ws2p_field conf_contradictory "port" = VUndef
  ∧ (startService (fresh_world no_gateway conf_contradictory [])).2 = inr tt
  ∧ calls (startService (fresh_world no_gateway conf_contradictory [])).1
    = [(StartCrawling, None)]
  ∧ surfaced (calls (startService (fresh_world no_gateway conf_contradictory [])).1)
             (startService (fresh_world no_gateway conf_contradictory [])).2
    = false
  ∧ calls (startService (fresh_world no_gateway conf_contradictory [])).1
    = calls (startService (fresh_world no_gateway conf_private_only [])).1.
Proof. vm_compute. done. Qed.

(** ** [startService]: the gateway grants no mapping *)

Section Unavailable.

Context `{Collaborators}.


(** The [try] block when the helper is constructed and [startRegular]
    reports that no mapping is available. *)
Lemma upnp_attempt_unavailable (w : World) u u' reply :
  upnp_new (created w) = inr u →
  upnp_startRegular u = (u', inr reply) →
  truthy (available reply) = false →
  upnp_attempt w
  = (log (StartRegular (created w), None)
       (set_upnpAPI (Some (created w, u'))
          (log (NewUpnp (created w), None)
             (set_upnpAPI (Some (created w, u))
                (set_created (S (created w)) w)))), inr tt).
Proof.
  intros Hnew Hstart Hav. unfold upnp_attempt.
  rewrite bind_run. unfold upnpAPI_new at 1. rewrite Hnew.
  rewrite bind_run. unfold upnpAPI_startRegular at 1. simpl.
  rewrite Hstart. by rewrite Hav.
Qed.

End Unavailable.

(** C5.  With the cluster and the NAT helper of the specification: public
    access is requested with UPnP enabled, and the [startRegular] of the
    helper this start constructs reports [available] false.  Then
    [startService] returns; its calls are the [stopRegular] of the helper
    of a previous start, if one is held, the construction of the helper and
    its [startRegular], and [startCrawling] when private access is enabled
    -- no [listen]; the cluster is as it was but for the crawl that
    [startCrawling] started, so no listener is bound and, with private
    access, the cluster is crawling; and [getEndpoint] afterwards returns
    the empty string. *)
Theorem startService_unavailable_mapping
    (gateways : nat → option (JsVal * JsVal))
    (w : @World (spec_collaborators gateways)) (o : gmap string JsVal)
    (u' : SpecUpnp) (reply : Reply) :
  ws2p (this_conf w) = Some o →
  truthy (get o "publicAccess") = true →
  get o "upnp" = VBool true →
  spec_startRegular (mkSpecUpnp (gateways (created w)) None false)
  = (u', inr reply) →
  truthy (available reply) = false →
  (startService w).2 = inr tt
  ∧ new_calls w (startService w).1
    = match upnpAPI w with
      | Some (id, _) => [(StopRegular id, None)]
      | None => []
      end
      ++ [(NewUpnp (created w), None); (StartRegular (created w), None)]
      ++ (if truthy (get o "privateAccess")
          then [(StartCrawling, None)] else [])
  ∧ cluster (startService w).1
    = (if truthy (get o "privateAccess")
       then (spec_startCrawling (cluster w)).1 else cluster w)
  ∧ listening (cluster (startService w).1) = listening (cluster w)
  ∧ (truthy (get o "privateAccess") = true →
     crawling (cluster (startService w).1) = true)
  ∧ getEndpoint (startService w).1 = "".
Proof.
  intros Ho Hpub Hupnp Hstart Hav.
  assert (Hgw : gateways (created w) = None ∧ u' = mkSpecUpnp None None true).
  { unfold spec_startRegular in Hstart. simpl in Hstart.
    destruct (gateways (created w)) as [[h p]|].
    - injection Hstart as <- <-. done.
    - injection Hstart as <- <-. done. }
  destruct Hgw as [Hgw ->].
  unfold startService. rewrite bind_run.
  rewrite public_access_upnp; cycle 1.
  { unfold ws2p_truthy. by rewrite Ho. }
  { unfold manual. by rewrite Ho, Hupnp. }
  { unfold upnp_wanted. by rewrite Ho, Hupnp. }
  rewrite bind_run.
  assert (Hprev : ∃ w1,
            (let! api := gets upnpAPI in
             when (bool_decide (is_Some api)) upnpAPI_stopRegular) w
            = (w1, inr tt)
            ∧ calls w1 = calls w ++ match upnpAPI w with
                                    | Some (id, _) => [(StopRegular id, None)]
                                    | None => []
                                    end
            ∧ created w1 = created w ∧ server_conf w1 = server_conf w
            ∧ conf w1 = conf w ∧ cluster w1 = cluster w).
  { rewrite bind_run. simpl.
    destruct (upnpAPI w) as [[id u0]|] eqn:Hu; simpl.
    - unfold upnpAPI_stopRegular. rewrite Hu. simpl.
      eexists. split; [done|]. done.
    - exists w. by rewrite app_nil_r. }
  destruct Hprev as (w1 & -> & Hcalls & Hcreated & Hsc & Hconf & Hcl).
  unfold try_catch.
  rewrite (upnp_attempt_unavailable w1
             (mkSpecUpnp (gateways (created w)) None false)
             (mkSpecUpnp None None true) reply);
    [|by rewrite Hcreated|exact Hstart|done].
  rewrite private_access_run.
  set (w3 := log _ _).
  assert (Hthis : this_conf w3 = this_conf w)
    by (unfold this_conf; simpl; by rewrite Hconf, Hsc).
  assert (Hcalls3 : calls w3
                    = calls w ++ match upnpAPI w with
                                 | Some (id, _) => [(StopRegular id, None)]
                                 | None => []
                                 end
                        ++ [(NewUpnp (created w), None);
                            (StartRegular (created w), None)]).
  { subst w3. simpl. rewrite Hcalls, Hcreated, <- !app_assoc. done. }
  assert (Hcl3 : cluster w3 = cluster w) by done.
  assert (Hend : ∀ c e, getEndpoint (log e (set_cluster c w3)) = ""
                        ∧ getEndpoint w3 = "").
  { intros c e. unfold getEndpoint. simpl.
    by destruct (ws2p (server_conf w1)). }
  clearbody w3.
  rewrite Hthis. unfold private_wanted. rewrite Ho.
  destruct (truthy (get o "privateAccess")) eqn:Hpriv.
  - rewrite on_cluster_run. simpl. rewrite Hcl3.
    split; [done|]. split.
    { apply new_calls_app. simpl. rewrite Hcalls3, <- !app_assoc. done. }
    split; [done|]. split; [done|]. split; [done|].
    apply (proj1 (Hend _ _)).
  - simpl. rewrite Hcl3. split; [done|]. split.
    { apply new_calls_app. by rewrite Hcalls3. }
    split; [done|]. split; [done|]. split; [done|].
    apply (proj2 (Hend (cluster w3) (Warn "", None))).
Qed.

Lemma startService_unavailable_mapping_witness :
  (startService (fresh_world no_gateway conf_upnp [])).2 = inr tt
  ∧ new_calls (fresh_world no_gateway conf_upnp [])
              (startService (fresh_world no_gateway conf_upnp [])).1
    = [(NewUpnp 0, None); (StartRegular 0, None); (StartCrawling, None)]
  ∧ listening (cluster (startService (fresh_world no_gateway conf_upnp [])).1)
    = None
  ∧ crawling (cluster (startService (fresh_world no_gateway conf_upnp [])).1)
    = true
  ∧ getEndpoint (startService (fresh_world no_gateway conf_upnp [])).1 = "".
Proof.
  destruct (startService_unavailable_mapping no_gateway
              (fresh_world no_gateway conf_upnp []) _
              (mkSpecUpnp None None true)
              (mkReply (VStr "") (VStr "") (VBool false))
              eq_refl eq_refl eq_refl eq_refl eq_refl)
    as (Hret & Hcalls & _ & Hlisten & Hcrawl & Hend).
  split; [exact Hret|]. split; [exact Hcalls|]. split; [exact Hlisten|].
  split; [exact (Hcrawl eq_refl)|exact Hend].
Defined.

(** ** [stopService] *)

Section StopService.

Context `{Collaborators}.

(** C7, with the assumption it needs.  Assume that [close] and
    [stopRegular] are idempotent, and that [stopCrawling] on a cluster whose
    crawl was stopped and which was then closed returns and changes
    nothing.  Then, after a
    [stopService] that returned, a second [stopService] returns too and
    leaves the facade and its collaborators as the first left them. *)
Theorem stopService_idempotent (w w1 : World) :
  (∀ c c', cluster_close c = (c', None) → cluster_close c' = (c', None)) →
  (∀ u u', upnp_stopRegular u = (u', None) →
           upnp_stopRegular u' = (u', None)) →
  (∀ c c1 c2, cluster_stopCrawling c = (c1, None) →
              cluster_close c1 = (c2, None) →
              cluster_stopCrawling c2 = (c2, None)) →
  stopService w = (w1, inr tt) →
  ∃ w2, stopService w1 = (w2, inr tt) ∧ observable w2 = observable w1.
Proof.
  intros Hclose Hstop Hcrawl Hrun.
  assert (Hsecond : ∀ w', cluster_close (cluster w') = (cluster w', None) →
            cluster_stopCrawling (cluster w') = (cluster w', None) →
            (∀ id u, upnpAPI w' = Some (id, u) →
                     upnp_stopRegular u = (u, None)) →
            ∃ w2, stopService w' = (w2, inr tt)
                  ∧ observable w2 = observable w').
  { intros w' Hcl Hcr Hst. unfold stopService.
    rewrite !bind_run, !on_cluster_run. rewrite Hcr. simpl.
    rewrite Hcl. simpl. rewrite bind_run. simpl.
    destruct (upnpAPI w') as [[id u]|] eqn:Hu; simpl.
    - unfold upnpAPI_stopRegular. simpl. rewrite Hu.
      rewrite (Hst id u eq_refl). simpl.
      eexists. split; [done|]. unfold observable. simpl. by rewrite Hu.
    - eexists. split; [done|]. unfold observable. simpl. by rewrite Hu. }
  unfold stopService in Hrun. rewrite !bind_run, !on_cluster_run in Hrun.
  destruct (cluster_stopCrawling (cluster w)) as [c1 [e|]] eqn:Hc1;
    simpl in Hrun; [done|].
  destruct (cluster_close c1) as [c2 [e|]] eqn:Hc2; simpl in Hrun; [done|].
  rewrite bind_run in Hrun. simpl in Hrun.
  destruct (upnpAPI w) as [[id u]|] eqn:Hu; simpl in Hrun.
  - unfold upnpAPI_stopRegular in Hrun. simpl in Hrun. rewrite Hu in Hrun.
    destruct (upnp_stopRegular u) as [u' [e|]] eqn:Hu'; simpl in Hrun;
      [done|].
    injection Hrun as <-. apply Hsecond; simpl.
    + by apply Hclose with c1.
    + by apply Hcrawl with (cluster w) c1.
    + intros id' u0 [= <- <-]. by apply Hstop with u.
  - injection Hrun as <-. apply Hsecond; simpl.
    + by apply Hclose with c1.
    + by apply Hcrawl with (cluster w) c1.
    + intros id' u0 Hu0. congruence.
Qed.

End StopService.

Lemma stopService_idempotent_witness :
  ∃ w2, stopService (stopService world_mapped).1 = (w2, inr tt)
        ∧ observable w2 = observable (stopService world_mapped).1.
Proof.
  apply (stopService_idempotent world_mapped (stopService world_mapped).1).
  - intros c c' [= <-]. reflexivity.
  - intros u u' [= <-]. reflexivity.
  - intros c c1 c2 [= <-] [= <-]. reflexivity.
  - reflexivity.
Defined.

(** C7, as stated, fails: for a cluster whose [stopCrawling] raises when no
    cycle is running, [close] and [stopRegular] are idempotent, a first
    [stopService] after a start returns, and the second one raises. *)
Lemma stopService_twice_raises :
  (∀ c c', @cluster_close strict_collaborators c = (c', None) →
           @cluster_close strict_collaborators c' = (c', None))
  ∧ (∀ u u', @upnp_stopRegular strict_collaborators u = (u', None) →
             @upnp_stopRegular strict_collaborators u' = (u', None))
  ∧ (stopService (startService (strict_world conf_manual)).1).2 = inr tt
  ∧ (stopService (stopService (startService (strict_world conf_manual)).1).1).2
    = inl "Error: not crawling".
Proof.
  split; [by intros c c' [= <-]|]. split; [by intros u u' [= <-]|].
  vm_compute. done.
Qed.

(** ** At most one renewal schedule *)

#[local] Arguments active_schedules : simpl never.


Lemma active_schedules_snoc t e :
  active_schedules (t ++ [e]) = schedule_step (active_schedules t) e.
Proof. unfold active_schedules. by rewrite foldl_snoc. Qed.


Lemma safe_snoc t e :
  safe t → (length (active_schedules (t ++ [e])) ≤ 1)%nat → safe (t ++ [e]).
Proof.
  intros Ht He p [k Hk].
  destruct k as [|x k _] using rev_ind.
  - rewrite app_nil_r in Hk. by subst p.
  - rewrite app_assoc in Hk. apply app_inj_tail in Hk as [-> _].
    apply Ht. by exists k.
Qed.

Lemma schedule_step_neutral a c r :
  neutral c → schedule_step a (c, r) = a.
Proof. by destruct c. Qed.

Section Schedules.

Context `{Collaborators}.


Lemma safe_log_neutral c r (w : World) :
  neutral c → safe (calls w) →
  safe (calls (log (c, r) w))
  ∧ active_schedules (calls (log (c, r) w)) = active_schedules (calls w).
Proof.
  intros Hc Hs. simpl.
  assert (Ha : active_schedules (calls w ++ [(c, r)])
               = active_schedules (calls w))
    by (rewrite active_schedules_snoc; by apply schedule_step_neutral).
  split; [|done]. apply safe_snoc; [done|]. rewrite Ha. apply Hs. done.
Qed.

Lemma stable_idle : stable idle.
Proof.
  split; try done.
  - intros o w _ Hi. unfold idle, set_this_conf. by destruct (conf w).
  - intros c r w Hc [Hs Ha].
    destruct (safe_log_neutral c r w Hc Hs) as [Hs' Ha'].
    split; [done | congruence].
Qed.













End Schedules.



(** ** [onLoading]: the other fields *)

Lemma conf_get_loading k o oth d :
  conf_get k (loading o oth d) = (loading o oth d, inr (get o k)).
Proof. reflexivity. Qed.

Lemma conf_set_loading k v o oth d :
  conf_set k v (loading o oth d) = (loading (<[k := v]> o) oth d, inr tt).
Proof. reflexivity. Qed.

Lemma default_if_undefined_loading k v o oth d :
  default_if_undefined k v (loading o oth d)
  = (loading (obj_default k v o) oth d, inr tt).
Proof.
  unfold default_if_undefined, obj_default. rewrite bind_run, conf_get_loading.
  by destruct (is_undefined (get o k)).
Qed.

Lemma option_to_conf_loading program opt k f o oth d :
  option_to_conf program opt k f (loading o oth d)
  = (loading (obj_option program opt k f o) oth d, inr tt).
Proof.
  unfold option_to_conf, obj_option.
  by destruct (is_undefined (get program opt)).
Qed.

Lemma fresh_uuid_loading nuuid_v4 o oth d :
  fresh_uuid nuuid_v4 (loading o oth d)
  = (loading o oth (S d), inr (VStr (String.substring 0 8 (nuuid_v4 d)))).
Proof. reflexivity. Qed.

Lemma default_uuid_loading nuuid_v4 o oth d :
  default_uuid nuuid_v4 (loading o oth d)
  = if truthy (get o "uuid")
    then (loading (<["uuid" := get o "uuid"]> o) oth d, inr tt)
    else (loading (<["uuid" := VStr (String.substring 0 8 (nuuid_v4 d))]> o)
                  oth (S d), inr tt).
Proof.
  unfold default_uuid. rewrite bind_run, conf_get_loading.
  destruct (truthy (get o "uuid")); [apply conf_set_loading|].
  by rewrite bind_run, fresh_uuid_loading, conf_set_loading.
Qed.

Lemma onLoading_init {A} nuuid_v4 ws oth d (rest : M Loading A) :
  (default_ws2p nuuid_v4;;; default_uuid nuuid_v4;;; rest)
    (mkLoading (mkConf ws oth) d)
  = rest (loading (obj_init nuuid_v4 ws d).1 oth (obj_init nuuid_v4 ws d).2).
Proof.
  rewrite bind_run, default_ws2p_run. simpl. destruct ws as [o|]; simpl.
  - change (mkLoading (mkConf (Some o) oth) d) with (loading o oth d).
    rewrite bind_run, default_uuid_loading.
    by destruct (truthy (get o "uuid")).
  - match goal with
    | |- context [mkLoading (set_ws2p ?o _) ?n] =>
        change (mkLoading (set_ws2p o (mkConf None oth)) n)
          with (loading o oth n)
    end.
    rewrite bind_run, default_uuid_loading.
    rewrite get_insert_ne, get_insert_ne, get_insert_eq by done.
    cbn [truthy]. by destruct (negb _).
Qed.

(** The hook is its first lines on the object, followed by the node lists
    and the default of [upnp]. *)
Lemma onLoading_run nuuid_v4 parseInt program ws oth d :
  onLoading nuuid_v4 parseInt program (mkLoading (mkConf ws oth) d)
  = onLoading_nodes_and_upnp program
      (loading (obj_scalars parseInt program (obj_init nuuid_v4 ws d).1) oth
               (obj_init nuuid_v4 ws d).2).
Proof.
  unfold onLoading. rewrite onLoading_init.
  repeat (rewrite (bind_run (default_if_undefined _ _)),
            default_if_undefined_loading).
  repeat (rewrite (bind_run (option_to_conf _ _ _ _)), option_to_conf_loading).
  reflexivity.
Qed.

Lemma get_obj_default k v o k' :
  get (obj_default k v o) k'
  = if decide (k = k')
    then (if is_undefined (get o k) then v else get o k)
    else get o k'.
Proof.
  unfold obj_default. case_decide as Hk.
  - subst k'. destruct (is_undefined (get o k)); [apply get_insert_eq | done].
  - destruct (is_undefined (get o k)); [by apply get_insert_ne | done].
Qed.

Lemma get_obj_option program opt k f o k' :
  get (obj_option program opt k f o) k'
  = if decide (k = k')
    then (if is_undefined (get program opt) then get o k
          else f (get program opt))
    else get o k'.
Proof.
  unfold obj_option. case_decide as Hk.
  - subst k'. destruct (is_undefined (get program opt));
      [done | apply get_insert_eq].
  - destruct (is_undefined (get program opt)); [done | by apply get_insert_ne].
Qed.

Lemma get_present (o : gmap string JsVal) k :
  get o k ≠ VUndef → o !! k = Some (get o k).
Proof. unfold get. by destruct (o !! k). Qed.

Lemma obj_default_defined k v (o : gmap string JsVal) :
  is_undefined (get o k) = false → obj_default k v o = o.
Proof. unfold obj_default. by intros ->. Qed.

Lemma obj_option_absent program opt k f (o : gmap string JsVal) :
  get program opt = VUndef → obj_option program opt k f o = o.
Proof. unfold obj_option. by intros ->. Qed.

Lemma get_obj_default_ne k v o k' :
  k ≠ k' → get (obj_default k v o) k' = get o k'.
Proof. intros. rewrite get_obj_default. by case_decide. Qed.

Lemma get_obj_option_ne program opt k f o k' :
  k ≠ k' → get (obj_option program opt k f o) k' = get o k'.
Proof. intros. rewrite get_obj_option. by case_decide. Qed.

(** Fields that lines 45 to 59 never write. *)
Lemma get_obj_scalars_other parseInt program o k :
  k ∉ ["privateAccess"; "publicAccess"; "host"; "port"; "remoteport";
       "remotehost"; "upnp"; "maxPrivate"; "maxPublic"] →
  get (obj_scalars parseInt program o) k = get o k.
Proof.
  rewrite !not_elem_of_cons.
  intros (? & ? & ? & ? & ? & ? & ? & ? & ? & _). unfold obj_scalars.
  rewrite !get_obj_option_ne, !get_obj_default_ne by done. done.
Qed.

Lemma maintains_ret {A} I (a : A) : maintains I (ret a).
Proof. intros o oth d HI. by exists o, (inr a). Qed.

Lemma maintains_throw {A} I e : maintains I (@throw Loading A e).
Proof. intros o oth d HI. by exists o, (inl e). Qed.

Lemma maintains_bind {A B} I (m : M Loading A) (k : A → M Loading B) :
  maintains I m → (∀ a, maintains I (k a)) → maintains I (bind m k).
Proof.
  intros Hm Hk o oth d HI. rewrite bind_run.
  destruct (Hm o oth d HI) as (o1 & [e|a] & -> & HI1).
  - by exists o1, (inl e).
  - by apply Hk.
Qed.

Lemma maintains_when I b (m : M Loading unit) :
  maintains I m → maintains I (when b m).
Proof. destruct b; [done | intros _; apply maintains_ret]. Qed.

Lemma maintains_conf_get I k : maintains I (conf_get k).
Proof. intros o oth d HI. by exists o, (inr (get o k)). Qed.

Lemma maintains_conf_set I k v : ignores I k → maintains I (conf_set k v).
Proof.
  intros Hk o oth d HI. exists (<[k := v]> o), (inr tt).
  split; [done | by apply Hk].
Qed.

Lemma maintains_nodes_add I k x : ignores I k → maintains I (nodes_add k x).
Proof.
  intros Hk. apply maintains_bind; [apply maintains_conf_get|].
  intros cur. apply maintains_bind; [by apply maintains_conf_set|].
  intros _. destruct (js_or cur (VArr [])); try apply maintains_throw.
  by apply maintains_conf_set.
Qed.

Lemma maintains_nodes_rm I k x : ignores I k → maintains I (nodes_rm k x).
Proof.
  intros Hk. apply maintains_bind; [apply maintains_conf_get|].
  intros cur. apply maintains_bind; [by apply maintains_conf_set|].
  intros _. destruct (js_or cur (VArr [])); try apply maintains_throw.
  - destruct (String.index _ _ _);
      [apply maintains_throw | apply maintains_ret].
  - destruct (array_indexOf _ _);
      [by apply maintains_conf_set | apply maintains_ret].
Qed.

(** The last statement of the hook, on the object. *)
Lemma upnp_default_loading o oth d :
  (let! upnp := conf_get "upnp" in
   when (is_undefined upnp || is_null upnp) (conf_set "upnp" (VBool true)))
    (loading o oth d)
  = (loading (if is_undefined (get o "upnp") || is_null (get o "upnp")
              then <["upnp" := VBool true]> o else o) oth d, inr tt).
Proof.
  rewrite bind_run, conf_get_loading.
  by destruct (is_undefined (get o "upnp") || is_null (get o "upnp")).
Qed.

Lemma ignores_get k k' v : k ≠ k' → ignores (λ o, get o k' = v) k.
Proof. intros Hk o w Ho. by rewrite get_insert_ne. Qed.

(** The node lists and the default of [upnp] leave every field but
    [preferedNodes], [privilegedNodes] and [upnp] as it is, and leave a
    [upnp] that is set as it is. *)
Lemma maintains_nodes_and_upnp I program :
  ignores I "preferedNodes" → ignores I "privilegedNodes" →
  (∀ o, I o →
        I (if is_undefined (get o "upnp") || is_null (get o "upnp")
           then <["upnp" := VBool true]> o else o)) →
  maintains I (onLoading_nodes_and_upnp program).
Proof.
  intros Hpref Hpriv Hupnp. unfold onLoading_nodes_and_upnp.
  apply maintains_bind; [by apply maintains_when, maintains_nodes_add|].
  intros _.
  apply maintains_bind; [by apply maintains_when, maintains_nodes_rm|].
  intros _.
  apply maintains_bind; [by apply maintains_when, maintains_nodes_add|].
  intros _.
  apply maintains_bind; [by apply maintains_when, maintains_nodes_rm|].
  intros _ o oth d HI. rewrite upnp_default_loading.
  eexists _, _. split; [done|]. by apply Hupnp.
Qed.

Lemma truthy_not_undefined v : truthy v = true → v ≠ VUndef.
Proof. by intros Ht ->. Qed.

Lemma not_undefined_is_undefined v : v ≠ VUndef ↔ is_undefined v = false.
Proof. by destruct v. Qed.

Lemma bind_ret_l {S A B} (a : A) (k : A → M S B) s : bind (ret a) k s = k a s.
Proof. reflexivity. Qed.

(** X1.  On a configuration that is complete (an identifier, both access
    flags and [upnp] set) and without any WS2P option on the command line,
    [onLoading] returns and changes nothing: neither the configuration nor
    the number of identifiers drawn. *)
Theorem onLoading_complete_conf_unchanged (nuuid_v4 : nat → string)
    (parseInt : JsVal → JsVal) (program : gmap string JsVal)
    (conf : WS2PConfDTO) (draws : nat) (o : gmap string JsVal) :
  ws2p conf = Some o →
  truthy (get o "uuid") = true →
  is_undefined (get o "privateAccess") = false →
  is_undefined (get o "publicAccess") = false →
  is_undefined (get o "upnp") || is_null (get o "upnp") = false →
  (∀ opt, opt ∈ ws2p_options → get program opt = VUndef) →
  onLoading nuuid_v4 parseInt program (mkLoading conf draws)
  = (mkLoading conf draws, inr tt).
Proof.
  intros Ho Huuid Hpriv Hpub Hupnp Hopt.
  destruct conf as [ws oth]. simpl in Ho. subst ws.
  assert (Habsent : ∀ opt, bool_decide (opt ∈ ws2p_options) = true →
                           get program opt = VUndef)
    by (intros opt Hin%bool_decide_eq_true; by apply Hopt).
  rewrite onLoading_run. unfold obj_init. rewrite Huuid. simpl.
  rewrite insert_id by by apply get_present, truthy_not_undefined.
  unfold obj_scalars.
  rewrite (obj_default_defined "privateAccess") by done.
  rewrite (obj_default_defined "publicAccess") by done.
  rewrite !obj_option_absent by by apply Habsent.
  unfold onLoading_nodes_and_upnp.
  rewrite !Habsent by done. cbn [is_undefined negb when].
  rewrite !bind_ret_l, upnp_default_loading, Hupnp. done.
Qed.

Lemma onLoading_complete_conf_unchanged_witness :
  onLoading v4_constant id ∅ (mkLoading conf_private_only 0)
  = (mkLoading conf_private_only 0, inr tt).
Proof.
  refine (onLoading_complete_conf_unchanged v4_constant id ∅
            conf_private_only 0
            (obj [("uuid", VStr "abcdef01"); ("privateAccess", VBool true);
                  ("publicAccess", VBool false); ("upnp", VBool false)])
            eq_refl eq_refl eq_refl eq_refl eq_refl _).
  intros opt _. reflexivity.
Defined.

(** A step that returned after a step that maintains [I]. *)
Lemma bind_maintains_returned {A B} I (m : M Loading A) (k : A → M Loading B)
    o oth d s' (b : B) :
  maintains I m → I o →
  bind m k (loading o oth d) = (s', inr b) →
  ∃ o1 a, I o1 ∧ k a (loading o1 oth d) = (s', inr b).
Proof.
  intros Hm HI. rewrite bind_run.
  destruct (Hm o oth d HI) as (o1 & [e|a] & -> & HI1); [done|].
  intros Hk. by exists o1, a.
Qed.

(** Values of the access flags after lines 45 to 59. *)
Lemma obj_scalars_privateAccess parseInt program o :
  get (obj_scalars parseInt program o) "privateAccess"
  = if is_undefined (get program "ws2pNoPrivate")
    then (if is_undefined (get program "ws2pPrivate")
          then (if is_undefined (get o "privateAccess") then VBool true
                else get o "privateAccess")
          else VBool true)
    else VBool false.
Proof.
  unfold obj_scalars.
  rewrite get_obj_option_ne by done.
  rewrite get_obj_option, decide_True by done.
  rewrite get_obj_option_ne by done.
  rewrite get_obj_option, decide_True by done.
  rewrite !get_obj_option_ne by done.
  rewrite get_obj_default_ne by done.
  rewrite get_obj_default, decide_True by done. done.
Qed.

Lemma obj_scalars_publicAccess parseInt program o :
  get (obj_scalars parseInt program o) "publicAccess"
  = if is_undefined (get program "ws2pNoPublic")
    then (if is_undefined (get program "ws2pPublic")
          then (if is_undefined (get o "publicAccess") then VBool false
                else get o "publicAccess")
          else VBool true)
    else VBool false.
Proof.
  unfold obj_scalars.
  rewrite get_obj_option, decide_True by done.
  rewrite get_obj_option_ne by done.
  rewrite get_obj_option, decide_True by done.
  rewrite !get_obj_option_ne by done.
  rewrite get_obj_default, decide_True by done.
  rewrite get_obj_default_ne by done. done.
Qed.

Lemma obj_scalars_upnp parseInt program o :
  get (obj_scalars parseInt program o) "upnp"
  = if is_undefined (get program "ws2pNoupnp")
    then (if is_undefined (get program "ws2pUpnp") then get o "upnp"
          else VBool true)
    else VBool false.
Proof.
  unfold obj_scalars.
  rewrite !get_obj_option_ne by done.
  rewrite get_obj_option, decide_True by done.
  rewrite get_obj_option, decide_True by done.
  rewrite !get_obj_option_ne by done.
  rewrite !get_obj_default_ne by done. done.
Qed.

Lemma upnp_default_other (o : gmap string JsVal) k :
  k ≠ "upnp" →
  get (if is_undefined (get o "upnp") || is_null (get o "upnp")
       then <["upnp" := VBool true]> o else o) k = get o k.
Proof. intros. destruct (_ || _); [by rewrite get_insert_ne | done]. Qed.

Lemma upnp_default_set (o : gmap string JsVal) :
  let o' := if is_undefined (get o "upnp") || is_null (get o "upnp")
            then <["upnp" := VBool true]> o else o in
  is_undefined (get o' "upnp") || is_null (get o' "upnp") = false
  ∧ (is_undefined (get o "upnp") || is_null (get o "upnp") = false →
     get o' "upnp" = get o "upnp").
Proof.
  simpl. destruct (is_undefined (get o "upnp") || is_null (get o "upnp")) eqn:Hu.
  - by rewrite get_insert_eq.
  - by rewrite Hu.
Qed.

(** X2.  Whatever the configuration and the options, [onLoading] leaves a
    [ws2p] object whose [privateAccess] and [publicAccess] are defined, and
    leaves the properties outside [ws2p] as they were; when it returns,
    [upnp] is neither undefined nor null. *)
Theorem onLoading_completes (nuuid_v4 : nat → string)
    (parseInt : JsVal → JsVal) (program : gmap string JsVal)
    (conf : WS2PConfDTO) (draws : nat) :
  ∃ o',
    ws2p (l_conf (onLoading nuuid_v4 parseInt program (mkLoading conf draws)).1)
    = Some o'
    ∧ other (l_conf (onLoading nuuid_v4 parseInt program (mkLoading conf draws)).1)
      = other conf
    ∧ is_undefined (get o' "privateAccess") = false
    ∧ is_undefined (get o' "publicAccess") = false
    ∧ match (onLoading nuuid_v4 parseInt program (mkLoading conf draws)).2 with
      | inr _ => is_undefined (get o' "upnp") || is_null (get o' "upnp") = false
      | inl _ => True
      end.
Proof.
  destruct conf as [ws oth]. rewrite onLoading_run.
  set (o1 := obj_scalars _ _ _). set (d1 := (obj_init _ _ _).2).
  set (I := λ o : gmap string JsVal,
         is_undefined (get o "privateAccess") = false
         ∧ is_undefined (get o "publicAccess") = false).
  assert (HI1 : I o1).
  { subst o1 I. simpl.
    rewrite obj_scalars_privateAccess, obj_scalars_publicAccess.
    split.
    - destruct (is_undefined (get program "ws2pNoPrivate")); [|done].
      destruct (is_undefined (get program "ws2pPrivate")); [|done].
      by destruct (is_undefined (get _ "privateAccess")) eqn:Hu.
    - destruct (is_undefined (get program "ws2pNoPublic")); [|done].
      destruct (is_undefined (get program "ws2pPublic")); [|done].
      by destruct (is_undefined (get _ "publicAccess")) eqn:Hu. }
  assert (Hign : ∀ k, k ≠ "privateAccess" → k ≠ "publicAccess" → ignores I k).
  { intros k ? ? o v [? ?]. unfold I. by rewrite !get_insert_ne. }
  unfold onLoading_nodes_and_upnp.
  destruct ((when (negb (is_undefined (get program "ws2pPreferedAdd")))
               (nodes_add "preferedNodes" (get program "ws2pPreferedAdd"));;;
             when (negb (is_undefined (get program "ws2pPreferedRm")))
               (nodes_rm "preferedNodes" (get program "ws2pPreferedRm"));;;
             when (negb (is_undefined (get program "ws2pPrivilegedAdd")))
               (nodes_add "privilegedNodes" (get program "ws2pPrivilegedAdd"));;;
             when (negb (is_undefined (get program "ws2pPrivilegedRm")))
               (nodes_rm "privilegedNodes" (get program "ws2pPrivilegedRm"));;;
             let! upnp := conf_get "upnp" in
             when (is_undefined upnp || is_null upnp)
               (conf_set "upnp" (VBool true))) (loading o1 oth d1))
    as [s' [e|[]]] eqn:Hrun.
  - pose proof (maintains_nodes_and_upnp I program) as Hm.
    unfold onLoading_nodes_and_upnp in Hm.
    destruct Hm with o1 oth d1 as (o' & r & Heq & [? ?]);
      [by apply Hign..| |done|].
    { intros o [? ?]. unfold I. by rewrite !upnp_default_other. }
    rewrite Hrun in Heq. injection Heq as -> <-. by exists o'.
  - apply (bind_maintains_returned I) in Hrun as (o2 & _ & HI2 & Hrun);
      [|by apply maintains_when, maintains_nodes_add, Hign|done].
    apply (bind_maintains_returned I) in Hrun as (o3 & _ & HI3 & Hrun);
      [|by apply maintains_when, maintains_nodes_rm, Hign|done].
    apply (bind_maintains_returned I) in Hrun as (o4 & _ & HI4 & Hrun);
      [|by apply maintains_when, maintains_nodes_add, Hign|done].
    apply (bind_maintains_returned I) in Hrun as (o5 & _ & [? ?] & Hrun);
      [|by apply maintains_when, maintains_nodes_rm, Hign|done].
    rewrite upnp_default_loading in Hrun. injection Hrun as <-.
    eexists. split; [done|]. split; [done|].
    rewrite !upnp_default_other by done.
    split; [done|]. split; [done|]. apply upnp_default_set.
Qed.

(** X3.  The negative properties win: when [program.ws2pNoupnp] is
    defined, [upnp] is [false] after [onLoading], also when
    [program.ws2pUpnp] is defined with it; likewise a defined
    [program.ws2pNoPrivate] leaves [privateAccess] false and a defined
    [program.ws2pNoPublic] leaves [publicAccess] false, whatever the
    configuration held and whether the hook returns or raises.  The names
    are those lines 53, 58 and 59 read, with their capital letters. *)
Theorem onLoading_negative_options_win (nuuid_v4 : nat → string)
    (parseInt : JsVal → JsVal) (program : gmap string JsVal)
    (conf : WS2PConfDTO) (draws : nat) :
  ∃ o',
    ws2p (l_conf (onLoading nuuid_v4 parseInt program (mkLoading conf draws)).1)
    = Some o'
    ∧ (get program "ws2pNoupnp" ≠ VUndef → get o' "upnp" = VBool false)
    ∧ (get program "ws2pNoPrivate" ≠ VUndef →
       get o' "privateAccess" = VBool false)
    ∧ (get program "ws2pNoPublic" ≠ VUndef →
       get o' "publicAccess" = VBool false).
Proof.
  destruct conf as [ws oth]. rewrite onLoading_run.
  set (o1 := obj_scalars _ _ _). set (d1 := (obj_init _ _ _).2).
  set (I := λ o : gmap string JsVal,
         (get program "ws2pNoupnp" ≠ VUndef → get o "upnp" = VBool false)
         ∧ (get program "ws2pNoPrivate" ≠ VUndef →
            get o "privateAccess" = VBool false)
         ∧ (get program "ws2pNoPublic" ≠ VUndef →
            get o "publicAccess" = VBool false)).
  assert (HI1 : I o1).
  { subst o1 I. simpl.
    rewrite obj_scalars_upnp, obj_scalars_privateAccess,
      obj_scalars_publicAccess.
    repeat split; intros ->%not_undefined_is_undefined; done. }
  destruct (maintains_nodes_and_upnp I program) with o1 oth d1
    as (o' & r & -> & HI'); [..|done|by exists o'].
  - intros o v (? & ? & ?). unfold I. rewrite !get_insert_ne by done. auto.
  - intros o v (? & ? & ?). unfold I. rewrite !get_insert_ne by done. auto.
  - intros o (Hu & ? & ?). unfold I.
    rewrite (upnp_default_other _ "privateAccess") by done.
    rewrite (upnp_default_other _ "publicAccess") by done. split; [|auto].
    intros Hno. specialize (Hu Hno).
    rewrite Hu. simpl. exact Hu.
Qed.

Lemma onLoading_negative_options_win_witness :
  ∃ o',
    ws2p (l_conf (onLoading v4_constant id
                    (obj [("ws2pUpnp", VBool true); ("ws2pNoupnp", VBool true)])
                    (mkLoading conf_upnp 0)).1) = Some o'
    ∧ get o' "upnp" = VBool false.
Proof.
  destruct (onLoading_negative_options_win v4_constant id
              (obj [("ws2pUpnp", VBool true); ("ws2pNoupnp", VBool true)])
              conf_upnp 0) as (o' & Ho' & Hupnp & _).
  exists o'. split; [exact Ho'|]. apply Hupnp. discriminate.
Defined.

Lemma js_or_list v : list_or_unset v → js_or v (VArr []) = VArr (list_of v).
Proof. by intros [[l ->]|Hv]; unfold js_or; [|rewrite Hv; destruct v]. Qed.

Lemma nodes_add_loading k x o oth d :
  list_or_unset (get o k) →
  nodes_add k x (loading o oth d)
  = (loading (<[k := VArr (list_of (get o k) ++ [js_String x])]>
               (<[k := VArr (list_of (get o k))]> o)) oth d, inr tt).
Proof.
  intros Hl. unfold nodes_add.
  rewrite bind_run, conf_get_loading, bind_run, conf_set_loading.
  rewrite (js_or_list _ Hl). apply conf_set_loading.
Qed.

Lemma nodes_rm_loading k x o oth d :
  list_or_unset (get o k) →
  nodes_rm k x (loading o oth d)
  = (loading (match array_indexOf x (list_of (get o k)) with
              | Some i => <[k := VArr (array_splice1 i (list_of (get o k)))]>
                            (<[k := VArr (list_of (get o k))]> o)
              | None => <[k := VArr (list_of (get o k))]> o
              end) oth d, inr tt).
Proof.
  intros Hl. unfold nodes_rm.
  rewrite bind_run, conf_get_loading, bind_run, conf_set_loading.
  rewrite (js_or_list _ Hl).
  destruct (array_indexOf _ _); [apply conf_set_loading | done].
Qed.

Lemma list_or_unset_VArr l : list_or_unset (VArr l).
Proof. left. by exists l. Qed.

Lemma lists_ok_insert_list o k l :
  lists_ok o → lists_ok (<[k := VArr l]> o).
Proof.
  intros [? ?]. unfold lists_ok. split.
  - destruct (decide (k = "preferedNodes")) as [->|];
      [rewrite get_insert_eq; apply list_or_unset_VArr
      |by rewrite get_insert_ne].
  - destruct (decide (k = "privilegedNodes")) as [->|];
      [rewrite get_insert_eq; apply list_or_unset_VArr
      |by rewrite get_insert_ne].
Qed.

Lemma lists_ok_insert_other o k v :
  k ≠ "preferedNodes" → k ≠ "privilegedNodes" →
  lists_ok o → lists_ok (<[k := v]> o).
Proof. intros ? ? [? ?]. unfold lists_ok. by rewrite !get_insert_ne. Qed.

Lemma returns_with_bind I (m k : M Loading unit) :
  returns_with I m → returns_with I k → returns_with I (m;;; k).
Proof.
  intros Hm Hk o oth d HI. rewrite bind_run.
  destruct (Hm o oth d HI) as (o1 & -> & HI1). by apply Hk.
Qed.

Lemma returns_with_when I b (m : M Loading unit) :
  returns_with I m → returns_with I (when b m).
Proof. destruct b; [done|]. intros _ o oth d HI. by exists o. Qed.

Lemma returns_with_nodes_add k x :
  k = "preferedNodes" ∨ k = "privilegedNodes" →
  returns_with lists_ok (nodes_add k x).
Proof.
  intros Hk o oth d Hok.
  assert (list_or_unset (get o k)) by (destruct Hok; by destruct Hk as [->| ->]).
  rewrite nodes_add_loading by done.
  eexists. split; [done|]. by do 2 apply lists_ok_insert_list.
Qed.

Lemma returns_with_nodes_rm k x :
  k = "preferedNodes" ∨ k = "privilegedNodes" →
  returns_with lists_ok (nodes_rm k x).
Proof.
  intros Hk o oth d Hok.
  assert (list_or_unset (get o k)) by (destruct Hok; by destruct Hk as [->| ->]).
  rewrite nodes_rm_loading by done.
  eexists. split; [done|].
  destruct (array_indexOf _ _); by repeat apply lists_ok_insert_list.
Qed.

Lemma returns_with_nodes_and_upnp program :
  returns_with lists_ok (onLoading_nodes_and_upnp program).
Proof.
  unfold onLoading_nodes_and_upnp.
  repeat (apply returns_with_bind;
          [apply returns_with_when;
           first [apply returns_with_nodes_add | apply returns_with_nodes_rm];
           auto|]).
  intros o oth d Hok. rewrite upnp_default_loading.
  eexists. split; [done|].
  destruct (_ || _); [by apply lists_ok_insert_other | done].
Qed.

Lemma obj_init_other nuuid_v4 ws d k :
  k ≠ "uuid" → k ≠ "privateAccess" → k ≠ "publicAccess" →
  get (obj_init nuuid_v4 ws d).1 k
  = match ws with Some o => get o k | None => VUndef end.
Proof.
  intros ? ? ?. unfold obj_init. destruct ws as [o|].
  - destruct (truthy (get o "uuid")); simpl; by rewrite get_insert_ne.
  - destruct (truthy _); simpl; by rewrite !get_insert_ne.
Qed.

(** The node lists before lines 61 to 90 are those of the configuration. *)
Lemma obj_scalars_init_list nuuid_v4 parseInt program conf d k :
  k = "preferedNodes" ∨ k = "privilegedNodes" →
  get (obj_scalars parseInt program (obj_init nuuid_v4 (ws2p conf) d).1) k
  = ws2p_field conf k.
Proof.
  intros Hk. rewrite get_obj_scalars_other, obj_init_other;
    [done|by destruct Hk as [->| ->]..|].
  rewrite !not_elem_of_cons, elem_of_nil.
  destruct Hk as [->| ->]; repeat split; (discriminate || tauto).
Qed.

(** X4.  [onLoading] raises only on a malformed node list: when
    [preferedNodes] and [privilegedNodes] of the configuration are arrays or
    are not set, the hook returns, for every command line. *)
Theorem onLoading_returns (nuuid_v4 : nat → string)
    (parseInt : JsVal → JsVal) (program : gmap string JsVal)
    (conf : WS2PConfDTO) (draws : nat) :
  list_or_unset (ws2p_field conf "preferedNodes") →
  list_or_unset (ws2p_field conf "privilegedNodes") →
  (onLoading nuuid_v4 parseInt program (mkLoading conf draws)).2 = inr tt.
Proof.
  intros Hpref Hpriv.
  pose proof (obj_scalars_init_list nuuid_v4 parseInt program conf draws) as Hl.
  destruct conf as [ws oth]. rewrite onLoading_run.
  destruct (returns_with_nodes_and_upnp program
              (obj_scalars parseInt program (obj_init nuuid_v4 ws draws).1)
              oth (obj_init nuuid_v4 ws draws).2) as (o' & -> & _); [|done].
  split; rewrite Hl; auto.
Qed.

Lemma onLoading_returns_witness :
  (onLoading v4_constant id (obj [("ws2pPreferedAdd", VStr "key1")])
     (mkLoading conf_manual 0)).2 = inr tt.
Proof.
  apply onLoading_returns; right; reflexivity.
Defined.

(** X5.  [--ws2p-prefered-add x], without [--ws2p-prefered-rm], appends
    [String(x)] at the end of [preferedNodes] (taken as empty when not set)
    and leaves the nodes already listed in place; a node already listed is
    listed a second time. *)
Theorem onLoading_prefered_add (nuuid_v4 : nat → string)
    (parseInt : JsVal → JsVal) (program : gmap string JsVal)
    (conf : WS2PConfDTO) (draws : nat) :
  list_or_unset (ws2p_field conf "preferedNodes") →
  get program "ws2pPreferedAdd" ≠ VUndef →
  get program "ws2pPreferedRm" = VUndef →
  ∃ o',
    ws2p (l_conf (onLoading nuuid_v4 parseInt program (mkLoading conf draws)).1)
    = Some o'
    ∧ get o' "preferedNodes"
      = VArr (list_of (ws2p_field conf "preferedNodes")
              ++ [js_String (get program "ws2pPreferedAdd")]).
Proof.
  intros Hpref Hadd%not_undefined_is_undefined Hrm.
  pose proof (obj_scalars_init_list nuuid_v4 parseInt program conf draws
                "preferedNodes" (or_introl eq_refl)) as Hl.
  destruct conf as [ws oth]. rewrite onLoading_run.
  set (o1 := obj_scalars _ _ _) in *. set (d1 := (obj_init _ _ _).2).
  unfold onLoading_nodes_and_upnp. rewrite Hadd, Hrm.
  cbn [negb is_undefined when].
  rewrite bind_run, nodes_add_loading by by rewrite Hl.
  rewrite bind_ret_l. rewrite Hl.
  set (v := VArr (_ ++ _)).
  match goal with
  | |- context [bind ?m ?k (loading ?ob oth d1)] =>
      destruct (maintains_bind (λ o0, get o0 "preferedNodes" = v) m k)
        with ob oth d1 as (o' & r & -> & Ho')
  end.
  - by apply maintains_when, maintains_nodes_add, ignores_get.
  - intros _. apply maintains_bind;
      [by apply maintains_when, maintains_nodes_rm, ignores_get|].
    intros _ o oth' d HI. rewrite upnp_default_loading.
    eexists _, _. split; [done|]. by rewrite upnp_default_other.
  - apply get_insert_eq.
  - by exists o'.
Qed.

Lemma onLoading_prefered_add_witness :
  ∃ o',
    ws2p (l_conf (onLoading v4_constant id
                    (obj [("ws2pPreferedAdd", VStr "key1")])
                    (mkLoading conf_manual 0)).1) = Some o'
    ∧ get o' "preferedNodes" = VArr ([] ++ ["key1"]).
Proof.
  apply (onLoading_prefered_add v4_constant id
           (obj [("ws2pPreferedAdd", VStr "key1")]) conf_manual 0).
  - right. reflexivity.
  - discriminate.
  - reflexivity.
Defined.

(** [indexOf] finds the first occurrence, and [splice] removes it. *)
Lemma array_indexOf_Some x l i :
  array_indexOf x l = Some i →
  ∃ y l1 l2, x = VStr y ∧ l = l1 ++ (y :: l2) ∧ (y ∉ l1)
             ∧ array_splice1 i l = l1 ++ l2.
Proof.
  revert i. induction l as [|z l IH]; intros i; simpl; [done|].
  case_decide as Hx.
  - intros [= <-]. exists z, [], l. split; [done|]. split; [done|].
    split; [apply not_elem_of_nil|]. unfold array_splice1. simpl.
    by rewrite drop_0.
  - destruct (array_indexOf x l) as [j|] eqn:Hj; [|done].
    intros [= <-]. destruct (IH j eq_refl) as (y & l1 & l2 & -> & -> & Hy & Hs).
    exists y, (z :: l1), l2. split; [done|]. split; [done|]. split.
    + rewrite not_elem_of_cons. split; [congruence | done].
    + unfold array_splice1 in *. simpl. by rewrite Hs.
Qed.

Lemma array_indexOf_None x l :
  array_indexOf x l = None → ∀ y, x = VStr y → y ∉ l.
Proof.
  induction l as [|z l IH]; simpl; intros Hnone y ->;
    [apply not_elem_of_nil|].
  case_decide as Hx; [done|].
  destruct (array_indexOf (VStr y) l) eqn:Hj; [done|].
  rewrite not_elem_of_cons. split; [congruence | by apply IH].
Qed.

(** X6.  [--ws2p-prefered-rm x], without [--ws2p-prefered-add], removes
    from [preferedNodes] the first node equal to [x] and only that one, the
    others keeping their order; when [x] is not a listed node the list is
    unchanged (and is the empty array when it was not set). *)
Theorem onLoading_prefered_rm (nuuid_v4 : nat → string)
    (parseInt : JsVal → JsVal) (program : gmap string JsVal)
    (conf : WS2PConfDTO) (draws : nat) :
  list_or_unset (ws2p_field conf "preferedNodes") →
  get program "ws2pPreferedAdd" = VUndef →
  get program "ws2pPreferedRm" ≠ VUndef →
  ∃ o' l',
    ws2p (l_conf (onLoading nuuid_v4 parseInt program (mkLoading conf draws)).1)
    = Some o'
    ∧ get o' "preferedNodes" = VArr l'
    ∧ ((∃ y l1 l2, get program "ws2pPreferedRm" = VStr y
                   ∧ list_of (ws2p_field conf "preferedNodes") = l1 ++ (y :: l2)
                   ∧ (y ∉ l1) ∧ l' = l1 ++ l2)
       ∨ ((∀ y, get program "ws2pPreferedRm" = VStr y →
                y ∉ list_of (ws2p_field conf "preferedNodes"))
          ∧ l' = list_of (ws2p_field conf "preferedNodes"))).
Proof.
  intros Hpref Hadd Hrm%not_undefined_is_undefined.
  pose proof (obj_scalars_init_list nuuid_v4 parseInt program conf draws
                "preferedNodes" (or_introl eq_refl)) as Hl.
  destruct conf as [ws oth]. rewrite onLoading_run.
  set (o1 := obj_scalars _ _ _) in *. set (d1 := (obj_init _ _ _).2).
  unfold onLoading_nodes_and_upnp. rewrite Hadd, Hrm.
  cbn [negb is_undefined when].
  rewrite bind_ret_l, bind_run, nodes_rm_loading by by rewrite Hl.
  rewrite Hl.
  set (l := list_of _) in *.
  assert (Hafter : ∃ l',
    get (match array_indexOf (get program "ws2pPreferedRm") l with
         | Some i => <["preferedNodes" := VArr (array_splice1 i l)]>
                       (<["preferedNodes" := VArr l]> o1)
         | None => <["preferedNodes" := VArr l]> o1
         end) "preferedNodes" = VArr l'
    ∧ ((∃ y l1 l2, get program "ws2pPreferedRm" = VStr y
                   ∧ l = l1 ++ (y :: l2) ∧ (y ∉ l1) ∧ l' = l1 ++ l2)
       ∨ ((∀ y, get program "ws2pPreferedRm" = VStr y → y ∉ l) ∧ l' = l))).
  { destruct (array_indexOf _ l) as [i|] eqn:Hi.
    - apply array_indexOf_Some in Hi as (y & l1 & l2 & Hy & Hsplit & Hnot & Hs).
      exists (array_splice1 i l). split; [apply get_insert_eq|].
      left. by exists y, l1, l2.
    - exists l. split; [apply get_insert_eq|]. right.
      split; [by apply array_indexOf_None | done]. }
  destruct Hafter as (l' & Hget & Hspec).
  match goal with
  | |- context [bind ?m ?k (loading ?ob oth d1)] =>
      destruct (maintains_bind (λ o0, get o0 "preferedNodes" = VArr l') m k)
        with ob oth d1 as (o' & r & -> & Ho')
  end.
  - by apply maintains_when, maintains_nodes_add, ignores_get.
  - intros _. apply maintains_bind;
      [by apply maintains_when, maintains_nodes_rm, ignores_get|].
    intros _ o oth' d HI. rewrite upnp_default_loading.
    eexists _, _. split; [done|]. by rewrite upnp_default_other.
  - done.
  - by exists o', l'.
Qed.

Lemma onLoading_prefered_rm_witness :
  ∃ o' l',
    ws2p (l_conf (onLoading v4_constant id
                    (obj [("ws2pPreferedRm", VStr "key1")])
                    (mkLoading conf_prefered 0)).1) = Some o'
    ∧ get o' "preferedNodes" = VArr l'
    ∧ ((∃ y l1 l2, get (obj [("ws2pPreferedRm", VStr "key1")]) "ws2pPreferedRm"
                   = VStr y
                   ∧ list_of (ws2p_field conf_prefered "preferedNodes")
                     = l1 ++ (y :: l2)
                   ∧ (y ∉ l1) ∧ l' = l1 ++ l2)
       ∨ ((∀ y, get (obj [("ws2pPreferedRm", VStr "key1")]) "ws2pPreferedRm"
                = VStr y →
                y ∉ list_of (ws2p_field conf_prefered "preferedNodes"))
          ∧ l' = list_of (ws2p_field conf_prefered "preferedNodes"))).
Proof.
  apply (onLoading_prefered_rm v4_constant id
           (obj [("ws2pPreferedRm", VStr "key1")]) conf_prefered 0).
  - left. exists ["key0"; "key1"; "key2"; "key1"]. reflexivity.
  - reflexivity.
  - discriminate.
Defined.

(** ** [beforeSave]: composition *)

(** The object [beforeSave] leaves, field by field. *)
Lemma omit_address_fields_lookup (o : gmap string JsVal) k :
  omit_falsy "remotehost" (omit_falsy "remoteport"
    (omit_falsy "port" (omit_falsy "host" o))) !! k
  = if bool_decide (k ∈ address_fields)
    then (if truthy (get o k) then o !! k else None)
    else o !! k.
Proof.
  destruct (decide (k = "host")) as [->|Hh];
    [|destruct (decide (k = "port")) as [->|Hp];
      [|destruct (decide (k = "remoteport")) as [->|Hrp];
        [|destruct (decide (k = "remotehost")) as [->|Hrh]]]].
  5: { rewrite bool_decide_eq_false_2 by (rewrite address_fields_elem; tauto).
       by rewrite !omit_falsy_lookup_ne. }
  all: rewrite bool_decide_eq_true_2 by (rewrite address_fields_elem; tauto).
  all: rewrite ?omit_falsy_lookup_ne by done;
       rewrite omit_falsy_lookup_eq;
       rewrite ?omit_falsy_get_ne by done;
       rewrite ?omit_falsy_lookup_ne by done; done.
Qed.

Lemma omit_address_fields_get (o : gmap string JsVal) k :
  get (omit_falsy "remotehost" (omit_falsy "remoteport"
         (omit_falsy "port" (omit_falsy "host" o)))) k
  = if bool_decide (k ∈ address_fields) && negb (truthy (get o k))
    then VUndef else get o k.
Proof.
  unfold get at 1. rewrite omit_address_fields_lookup.
  destruct (bool_decide _); [|done].
  by destruct (truthy (get o k)).
Qed.

Lemma omit_address_fields_truthy (o : gmap string JsVal) k :
  truthy (get (omit_falsy "remotehost" (omit_falsy "remoteport"
                 (omit_falsy "port" (omit_falsy "host" o)))) k)
  = truthy (get o k).
Proof.
  rewrite omit_address_fields_get.
  destruct (bool_decide _); [|done].
  by destruct (truthy (get o k)) eqn:Ht.
Qed.

(** X7.  [beforeSave] is idempotent: saving a configuration that was just
    prepared for saving changes nothing more. *)
Theorem beforeSave_idempotent (conf : WS2PConfDTO) :
  beforeSave (beforeSave conf) = beforeSave conf.
Proof.
  assert (Hother : other (beforeSave conf) = other conf)
    by (unfold beforeSave; by rewrite !delete_if_falsy_other).
  assert (Hother2 : other (beforeSave (beforeSave conf)) = other conf)
    by (unfold beforeSave; by rewrite !delete_if_falsy_other).
  pose proof (beforeSave_ws2p conf) as H1.
  pose proof (beforeSave_ws2p (beforeSave conf)) as H2.
  rewrite H1 in H2.
  destruct (beforeSave (beforeSave conf)) as [ws2 oth2].
  destruct (beforeSave conf) as [ws1 oth1]. simpl in *. subst oth1 oth2.
  f_equal. rewrite H1, H2. destruct (ws2p conf) as [o|]; [|done]. simpl.
  f_equal. apply map_eq. intros k.
  rewrite omit_address_fields_lookup, omit_address_fields_truthy.
  rewrite omit_address_fields_lookup.
  destruct (bool_decide _); [|done]. by destruct (truthy (get o k)).
Qed.

(** X8.  [beforeSave] changes nothing that [startService] or [getEndpoint]
    decide on: every field of [ws2p] is truthy after saving exactly when it
    was before and a field that is truthy keeps its value, so the branch
    conditions of [startService] and the condition of [getEndpoint] on the
    configured remote address are unchanged. *)
Theorem beforeSave_keeps_decisions (conf : WS2PConfDTO) :
  (∀ k, ws2p_truthy (beforeSave conf) k = ws2p_truthy conf k)
  ∧ (∀ k, ws2p_truthy conf k = true →
          ws2p_field (beforeSave conf) k = ws2p_field conf k)
  ∧ manual (beforeSave conf) = manual conf
  ∧ upnp_wanted (beforeSave conf) = upnp_wanted conf
  ∧ private_wanted (beforeSave conf) = private_wanted conf
  ∧ manual_remote_available (beforeSave conf) = manual_remote_available conf.
Proof.
  pose proof (beforeSave_ws2p conf) as Hws.
  assert (Htruthy : ∀ k, ws2p_truthy (beforeSave conf) k = ws2p_truthy conf k).
  { intros k. unfold ws2p_truthy. rewrite Hws.
    destruct (ws2p conf) as [o|]; [|done]. apply omit_address_fields_truthy. }
  split; [done|]. split; [|split; [|split; [|split]]].
  - intros k. unfold ws2p_truthy, ws2p_field. rewrite Hws.
    destruct (ws2p conf) as [o|]; [|done]. simpl. intros Ht.
    rewrite omit_address_fields_get, Ht. simpl. by rewrite andb_false_r.
  - unfold manual. rewrite Hws. destruct (ws2p conf) as [o|]; [|done]. simpl.
    by rewrite !omit_address_fields_truthy.
  - unfold upnp_wanted. rewrite Hws. destruct (ws2p conf) as [o|]; [|done].
    simpl. rewrite omit_address_fields_get.
    by rewrite bool_decide_eq_false_2 by (rewrite address_fields_elem;
      intros [?|[?|[?|?]]]; discriminate).
  - unfold private_wanted. rewrite Hws. destruct (ws2p conf) as [o|]; [|done].
    simpl. by rewrite omit_address_fields_truthy.
  - unfold manual_remote_available. by rewrite !Htruthy.
Qed.

Lemma beforeSave_keeps_decisions_witness :
  ws2p_field (beforeSave conf_manual) "host" = VStr "0.0.0.0".
Proof.
  exact (proj1 (proj2 (beforeSave_keeps_decisions conf_manual)) "host" eq_refl).
Defined.

(** ** [getWrongEndpoints]: composition *)

(** X9.  [getWrongEndpoints] is idempotent and distributes over the
    concatenation of lists, and it returns the empty list for a
    configuration without [ws2p]. *)
Theorem getWrongEndpoints_composition
    (m : string → option (list (option string)))
    (eps eps' : list string) (c : WS2PConfDTO) :
  getWrongEndpoints m (getWrongEndpoints m eps c) c = getWrongEndpoints m eps c
  ∧ getWrongEndpoints m (eps ++ eps') c
    = getWrongEndpoints m eps c ++ getWrongEndpoints m eps' c
  ∧ (ws2p c = None → getWrongEndpoints m eps c = []).
Proof.
  unfold getWrongEndpoints. split; [|split].
  - induction eps as [|ep eps IH]; simpl; [done|].
    destruct (is_wrong_endpoint m c ep) eqn:Hw; simpl; [|done].
    by rewrite Hw, IH.
  - apply List.filter_app.
  - intros Hnone. induction eps as [|ep eps IH]; simpl; [done|].
    unfold is_wrong_endpoint at 1. by rewrite Hnone.
Qed.

Lemma getWrongEndpoints_composition_witness :
  getWrongEndpoints spec_WS2P_REGEXP_match [own_ep] (mkConf None ∅) = [].
Proof.
  exact (proj2 (proj2 (getWrongEndpoints_composition
                         spec_WS2P_REGEXP_match [own_ep] [] (mkConf None ∅)))
           eq_refl).
Defined.

(** ** [startService] and [stopService]: errors, frame, helper *)

Section FacadeMore.

Context `{Collaborators}.

Lemma outcome_inl r e : outcome r = inl e → r = Some e.
Proof. destruct r; [by intros [= ->] | done]. Qed.

(** X10.  An error raised by [startService] is the error of the last call
    it made, and that call is [startCrawling], the [stopRegular] of the
    helper of a previous start, or the [listen] on the manually configured
    host and port: nothing raised inside the UPnP attempt reaches the
    caller. *)
Theorem startService_error_provenance (w : World) (e : Err) :
  (startService w).2 = inl e →
  ∃ c, last (calls (startService w).1) = Some (c, Some e)
       ∧ (c = StartCrawling
          ∨ (∃ id u, upnpAPI w = Some (id, u) ∧ c = StopRegular id
                     ∧ manual (this_conf w) = false)
          ∨ (c = Listen (ws2p_field (this_conf w) "host")
                        (ws2p_field (this_conf w) "port")
             ∧ manual (this_conf w) = true)).
Proof.
  unfold startService. rewrite bind_run.
  destruct (public_access w) as [w1 [e1|[]]] eqn:Hpub; simpl.
  - intros [= ->].
    destruct (ws2p_truthy (this_conf w) "publicAccess") eqn:Hp;
      [|by rewrite public_access_off in Hpub].
    destruct (manual (this_conf w)) eqn:Hman.
    { rewrite public_access_manual, on_cluster_run in Hpub by done.
      injection Hpub as <- Hr%outcome_inl. rewrite Hr. simpl.
      eexists. split; [apply last_snoc|]. right. right. done. }
    destruct (upnp_wanted (this_conf w)) eqn:Hupnp.
    + rewrite public_access_upnp in Hpub by done.
      rewrite bind_run, bind_run in Hpub. simpl in Hpub.
      destruct (upnpAPI w) as [[id u]|] eqn:Hu; simpl in Hpub.
      * unfold upnpAPI_stopRegular in Hpub. rewrite Hu in Hpub.
        destruct (upnp_stopRegular u) as [u' [e'|]]; simpl in Hpub.
        -- injection Hpub as <- <-. simpl.
           eexists. split; [apply last_snoc|]. right. left. by exists id, u.
        -- assert (Hret : (w1, @inl Err unit e).2 = inr tt)
             by (rewrite <- Hpub; apply try_catch_warn_returns).
           done.
      * assert (Hret : (w1, @inl Err unit e).2 = inr tt)
          by (rewrite <- Hpub; apply try_catch_warn_returns).
        done.
    + unfold public_access in Hpub. rewrite bind_run in Hpub. simpl in Hpub.
      by rewrite Hp, Hman, Hupnp in Hpub.
  - rewrite private_access_run.
    destruct (private_wanted (this_conf w1)); [|done].
    rewrite on_cluster_run. simpl. intros Hr%outcome_inl. rewrite Hr.
    eexists. split; [apply last_snoc|]. by left.
Qed.

Lemma indifferent_conf_or_upnp_true c0 : indifferent (conf_or_upnp_true c0).
Proof.
  split; [split|..]; try done.
  intros o w Ho [Hc|(o0 & Ho0 & Hc)]; unfold conf_or_upnp_true;
    rewrite this_conf_set_this_conf.
  - right. exists o. split; [congruence|]. by rewrite Hc.
  - right. exists o0. split; [done|]. rewrite Hc in Ho |- *. simpl in Ho.
    injection Ho as <-. unfold set_ws2p. simpl. by rewrite insert_insert_eq.
Qed.

(** X11.  [startService] writes nothing into the configuration but
    [ws2p.upnp], which it can only set to [true]: afterwards the
    configuration is what it was, or what it was with [ws2p.upnp] true. *)
Theorem startService_conf_frame (w : World) :
  this_conf (startService w).1 = this_conf w
  ∨ ∃ o, ws2p (this_conf w) = Some o
         ∧ this_conf (startService w).1
           = set_ws2p (<["upnp" := VBool true]> o) (this_conf w).
Proof.
  pose proof (indifferent_conf_or_upnp_true (this_conf w)) as HI.
  refine (preserves_bind (conf_or_upnp_true (this_conf w)) public_access
            (λ _, private_access) _ _ w _).
  - by apply preserves_public_access.
  - intros _. by apply preserves_private_access, indifferent_stable.
  - by left.
Qed.

(** X12.  A [startService] that does not take the UPnP branch (public
    access is off, or the manual branch is taken, or UPnP is set to
    [false]) never touches the NAT helper nor the configuration: the
    helper held, the number of helpers constructed, both configurations and
    the advertised endpoint are what they were. *)
Theorem startService_without_upnp (w : World) :
  ws2p_truthy (this_conf w) "publicAccess" = false
  ∨ manual (this_conf w) = true
  ∨ upnp_wanted (this_conf w) = false →
  upnpAPI (startService w).1 = upnpAPI w
  ∧ created (startService w).1 = created w
  ∧ server_conf (startService w).1 = server_conf w
  ∧ conf (startService w).1 = conf w
  ∧ getEndpoint (startService w).1 = getEndpoint w.
Proof.
  intros Hcase.
  assert (Hpub : ∃ w1, (public_access w).1 = w1
                       ∧ upnpAPI w1 = upnpAPI w ∧ created w1 = created w
                       ∧ server_conf w1 = server_conf w ∧ conf w1 = conf w).
  { destruct (ws2p_truthy (this_conf w) "publicAccess") eqn:Hp;
      [|rewrite public_access_off by done; by exists w].
    destruct (manual (this_conf w)) eqn:Hman.
    - rewrite public_access_manual, on_cluster_run by done.
      by eexists.
    - destruct Hcase as [?|[?|Hupnp]]; try done.
      unfold public_access. rewrite bind_run. simpl.
      rewrite Hp, Hman, Hupnp. by exists w. }
  destruct Hpub as (w1 & Hw1 & Hu & Hc & Hsc & Hconf).
  assert (Hall : upnpAPI (startService w).1 = upnpAPI w
                 ∧ created (startService w).1 = created w
                 ∧ server_conf (startService w).1 = server_conf w
                 ∧ conf (startService w).1 = conf w).
  { unfold startService. rewrite bind_run.
    destruct (public_access w) as [w1' [e|[]]]; simpl in *; subst w1'; [done|].
    rewrite private_access_run.
    destruct (private_wanted _); [rewrite on_cluster_run|]; done. }
  destruct Hall as (Hu' & Hc' & Hsc' & Hconf').
  repeat split; try done.
  unfold getEndpoint. by rewrite Hu', Hsc'.
Qed.






End FacadeMore.

Lemma startService_error_provenance_witness :
  ∃ c, last (calls (startService
                      (fresh_world no_gateway conf_manual [VNum (SafeInt 20901 I)])).1)
       = Some (c, Some "BindError")
       ∧ (c = StartCrawling
          ∨ (∃ id u, upnpAPI (fresh_world no_gateway conf_manual [VNum (SafeInt 20901 I)])
                     = Some (id, u) ∧ c = StopRegular id
                     ∧ manual (this_conf (fresh_world no_gateway conf_manual
                                            [VNum (SafeInt 20901 I)])) = false)
          ∨ (c = Listen (ws2p_field (this_conf (fresh_world no_gateway
                                       conf_manual [VNum (SafeInt 20901 I)])) "host")
                        (ws2p_field (this_conf (fresh_world no_gateway
                                       conf_manual [VNum (SafeInt 20901 I)])) "port")
             ∧ manual (this_conf (fresh_world no_gateway conf_manual
                                    [VNum (SafeInt 20901 I)])) = true)).
Proof.
  apply (startService_error_provenance
           (fresh_world no_gateway conf_manual [VNum (SafeInt 20901 I)]) "BindError").
  reflexivity.
Defined.

Lemma startService_without_upnp_witness :
  getEndpoint (startService (fresh_world no_gateway conf_manual [])).1
  = getEndpoint (fresh_world no_gateway conf_manual []).
Proof.
  apply (startService_without_upnp (fresh_world no_gateway conf_manual [])).
  right. left. reflexivity.
Defined.


Section StopMore.

Context `{Collaborators}.

(** X14.  [stopService] stops at the first call that raises: when
    [stopCrawling] raises, [close] and [stopRegular] are not called; when
    [close] raises, [stopRegular] is not called; otherwise the calls are
    [stopCrawling], [close] and, when a helper is held, its [stopRegular],
    in that order.  In every case the configuration is untouched. *)
Theorem stopService_stops_at_first_error (w : World) :
  (∀ e, (cluster_stopCrawling (cluster w)).2 = Some e →
        (stopService w).2 = inl e
        ∧ new_calls w (stopService w).1 = [(StopCrawling, Some e)])
  ∧ ((cluster_stopCrawling (cluster w)).2 = None →
     ∀ e, (cluster_close (cluster_stopCrawling (cluster w)).1).2 = Some e →
          (stopService w).2 = inl e
          ∧ new_calls w (stopService w).1
            = [(StopCrawling, None); (Close, Some e)])
  ∧ ((cluster_stopCrawling (cluster w)).2 = None →
     (cluster_close (cluster_stopCrawling (cluster w)).1).2 = None →
     match upnpAPI w with
     | Some (id, u) =>
         (stopService w).2 = outcome (upnp_stopRegular u).2
         ∧ new_calls w (stopService w).1
           = [(StopCrawling, None); (Close, None);
              (StopRegular id, (upnp_stopRegular u).2)]
     | None =>
         (stopService w).2 = inr tt
         ∧ new_calls w (stopService w).1 = [(StopCrawling, None); (Close, None)]
     end)
  ∧ server_conf (stopService w).1 = server_conf w
  ∧ conf (stopService w).1 = conf w.
Proof.
  unfold stopService. rewrite !bind_run, !on_cluster_run.
  destruct (cluster_stopCrawling (cluster w)) as [c1 [e1|]] eqn:Hc1; simpl.
  { split; [|done]. intros e [= <-]. split; [done|]. by apply new_calls_app. }
  destruct (cluster_close c1) as [c2 [e2|]] eqn:Hc2; simpl.
  { split; [done|]. split; [|done]. intros _ e [= <-]. split; [done|].
    apply new_calls_app. simpl. by rewrite <- app_assoc. }
  rewrite bind_run. simpl.
  destruct (upnpAPI w) as [[id u]|] eqn:Hu; simpl.
  - unfold upnpAPI_stopRegular. simpl. rewrite Hu.
    destruct (upnp_stopRegular u) as [u' r]. simpl.
    split; [done|]. split; [done|]. split; [|done]. intros _ _.
    split; [done|]. apply new_calls_app. simpl. by rewrite <- !app_assoc.
  - split; [done|]. split; [done|]. split; [|done]. intros _ _.
    split; [done|]. apply new_calls_app. simpl. by rewrite <- !app_assoc.
Qed.



End StopMore.

Lemma stopService_stops_at_first_error_witness :
  (stopService (strict_world conf_manual)).2 = inl "Error: not crawling"
  ∧ new_calls (strict_world conf_manual)
              (stopService (strict_world conf_manual)).1
    = [(StopCrawling, Some "Error: not crawling")].
Proof.
  apply (proj1 (stopService_stops_at_first_error (strict_world conf_manual))).
  reflexivity.
Defined.


(** ** [startService]: the gateway grants a mapping *)

Section Mapped.

Context `{Collaborators}.






End Mapped.


(** ** [onConfiguredExecute] *)

Lemma for_each_endpoints (pk : string) (eps : list string) (s : list CliCall) :
  for_each eps (λ ep, when (starts_with_WS2P ep)
                        (console_log [VStr pk; VStr ep])) s
  = (s ++ (ep ← List.filter starts_with_WS2P eps;
           [ConsoleLog [VStr pk; VStr ep]]), inr tt).
Proof.
  revert s. induction eps as [|ep eps IH]; intros s; simpl.
  - by rewrite app_nil_r.
  - rewrite bind_run. destruct (starts_with_WS2P ep); simpl.
    + rewrite IH, <- app_assoc. done.
    + by rewrite IH.
Qed.

Lemma for_each_peers (peers : list Peer) (s : list CliCall) :
  for_each peers (λ p,
    for_each (endpoints p) (λ ep,
      when (starts_with_WS2P ep)
        (console_log [VStr (pubkey p); VStr ep]))) s
  = (s ++ ws2p_lines peers, inr tt).
Proof.
  revert s. induction peers as [|p peers IH]; intros s; simpl.
  - by rewrite app_nil_r.
  - rewrite bind_run, for_each_endpoints, IH, <- app_assoc. done.
Qed.

Lemma for_each_console_log (l : list JsVal) (s : list CliCall) :
  for_each l (λ p, console_log [p]) s
  = (s ++ ((λ p, ConsoleLog [p]) <$> l), inr tt).
Proof.
  revert s. induction l as [|p l IH]; intros s; simpl.
  - by rewrite app_nil_r.
  - rewrite bind_run. simpl. rewrite IH, <- app_assoc. done.
Qed.

(** What [for (const p of v) console.log(p)] adds to the output is made of
    printed lines only. *)
Lemma log_each_prints (v : JsVal) (s : list CliCall) :
  ∃ new, (log_each v s).1 = s ++ new
         ∧ Forall (λ c, ∃ args, c = ConsoleLog args) new.
Proof.
  unfold log_each. destruct (js_iterate v) as [e|l].
  - exists []. by rewrite app_nil_r.
  - rewrite for_each_console_log. eexists. split; [done|].
    apply Forall_fmap, Forall_true. intros p. by eexists.
Qed.

(** X17.  [ws2p list-nodes] plugs the DAL, reads the WS2P peers and prints,
    peer after peer and endpoint after endpoint in the order of the
    directory, one line [pubkey endpoint] for each endpoint that starts
    with [WS2P ], and nothing else.  When [initDAL] raises, the directory
    is not read and nothing is printed; when reading the directory raises,
    nothing is printed; either error is the result of the command. *)
Theorem list_nodes_prints_ws2p_endpoints
    (JSON_stringify : option (gmap string JsVal) → JsVal)
    (conf : WS2PConfDTO) (out : list CliCall) :
  (∀ peers,
     onConfiguredExecute None (inr peers) JSON_stringify conf
       (VStr "list-nodes") out
     = (out ++ [InitDAL; GetWS2Peers] ++ ws2p_lines peers, inr tt))
  ∧ (∀ e result,
       onConfiguredExecute (Some e) result JSON_stringify conf
         (VStr "list-nodes") out
       = (out ++ [InitDAL], inl e))
  ∧ (∀ e,
       onConfiguredExecute None (inl e) JSON_stringify conf
         (VStr "list-nodes") out
       = (out ++ [InitDAL; GetWS2Peers], inl e)).
Proof.
  split; [|split].
  - intros peers. unfold onConfiguredExecute. rewrite bind_run. simpl.
    rewrite bind_run. simpl. rewrite for_each_peers, <- !app_assoc. done.
  - intros e result. unfold onConfiguredExecute. by rewrite bind_run.
  - intros e. unfold onConfiguredExecute. rewrite bind_run. simpl.
    rewrite bind_run. simpl. by rewrite <- app_assoc.
Qed.

(** X18.  [ws2p list-prefered] and [ws2p list-privileged] print the
    configured prefered, respectively privileged, nodes, one per line and
    in the order of the configuration, and return; they print nothing when
    the list or the whole [ws2p] object is unset.  Neither touches the
    DAL. *)
Theorem list_configured_nodes
    (initDAL_raises : option Err) (getWS2Peers_result : Err + list Peer)
    (JSON_stringify : option (gmap string JsVal) → JsVal)
    (conf : WS2PConfDTO) (subcmd k : string) (out : list CliCall) :
  (subcmd, k) ∈ [("list-prefered", "preferedNodes");
                 ("list-privileged", "privilegedNodes")] →
  (∀ o l, ws2p conf = Some o → get o k = VArr l →
     onConfiguredExecute initDAL_raises getWS2Peers_result JSON_stringify
       conf (VStr subcmd) out
     = (out ++ ((λ p, ConsoleLog [VStr p]) <$> l), inr tt))
  ∧ (ws2p_truthy conf k = false →
     onConfiguredExecute initDAL_raises getWS2Peers_result JSON_stringify
       conf (VStr subcmd) out
     = (out, inr tt)).
Proof.
  intros Hk.
  assert (Hrun : onConfiguredExecute initDAL_raises getWS2Peers_result
                   JSON_stringify conf (VStr subcmd) out
                 = log_each (ws2p_list_or_empty conf k) out).
  { rewrite !elem_of_cons, elem_of_nil in Hk.
    destruct Hk as [Hk|[Hk|[]]]; injection Hk as -> ->;
      unfold onConfiguredExecute; by rewrite bind_run. }
  rewrite Hrun. split.
  - intros o l Ho Hl. unfold ws2p_list_or_empty, log_each.
    rewrite Ho, Hl. simpl. rewrite for_each_console_log.
    by rewrite <- list_fmap_compose.
  - intros Hunset. unfold ws2p_list_or_empty, log_each.
    unfold ws2p_truthy in Hunset. destruct (ws2p conf) as [o|].
    + unfold js_or. by rewrite Hunset.
    + done.
Qed.

Lemma list_configured_nodes_witness :
  onConfiguredExecute None (inr []) (λ _, VUndef)
    (mkConf (Some (obj [("uuid", VStr "abcdef01");
                        ("preferedNodes", VArr ["pubA"; "pubB"])])) ∅)
    (VStr "list-prefered") []
  = ([ConsoleLog [VStr "pubA"]; ConsoleLog [VStr "pubB"]], inr tt).
Proof.
  exact (proj1 (list_configured_nodes None (inr []) (λ _, VUndef)
                  (mkConf (Some (obj [("uuid", VStr "abcdef01");
                                      ("preferedNodes", VArr ["pubA"; "pubB"])])) ∅)
                  "list-prefered" "preferedNodes" []
                  (list_elem_of_here _ _))
               _ ["pubA"; "pubB"] eq_refl eq_refl).
Defined.

(** X19.  Apart from [list-nodes], no subcommand touches the DAL: all that
    [onConfiguredExecute] does to its environment is to print lines.  A
    subcommand that is none of [show-conf], [list-prefered],
    [list-privileged] and [list-nodes] prints nothing and raises a
    [ReferenceError]: the [default] branch evaluates
    [constants.ERRORS.CLI_CALLERR_WS2P], and [constants] is not declared in
    the module. *)
Theorem only_list_nodes_uses_the_DAL
    (initDAL_raises : option Err) (getWS2Peers_result : Err + list Peer)
    (JSON_stringify : option (gmap string JsVal) → JsVal)
    (conf : WS2PConfDTO) (subcmd : JsVal) (out : list CliCall) :
  subcmd ≠ VStr "list-nodes" →
  ∃ new,
    (onConfiguredExecute initDAL_raises getWS2Peers_result JSON_stringify
       conf subcmd out).1 = out ++ new
    ∧ Forall (λ c, ∃ args, c = ConsoleLog args) new
    ∧ (subcmd ∉ [VStr "show-conf"; VStr "list-prefered"; VStr "list-privileged"] →
       new = []
       ∧ (onConfiguredExecute initDAL_raises getWS2Peers_result JSON_stringify
            conf subcmd out).2
         = inl "ReferenceError: constants is not defined").
Proof.
  intros Hnodes. unfold onConfiguredExecute. rewrite bind_run.
  rewrite (bool_decide_eq_false_2 _ Hnodes). simpl.
  destruct (decide (subcmd = VStr "show-conf")) as [->|Hshow].
  { simpl. eexists. split; [done|]. split.
    - repeat constructor. by eexists.
    - intros Hnot. contradict Hnot. set_solver. }
  rewrite (bool_decide_eq_false_2 _ Hshow).
  destruct (decide (subcmd = VStr "list-prefered")) as [->|Hpref].
  { simpl. destruct (log_each_prints (ws2p_list_or_empty conf "preferedNodes") out)
      as (new & Hnew & Hall).
    exists new. split; [done|]. split; [done|].
    intros Hnot. contradict Hnot. set_solver. }
  rewrite (bool_decide_eq_false_2 _ Hpref).
  destruct (decide (subcmd = VStr "list-privileged")) as [->|Hpriv].
  { simpl. destruct (log_each_prints (ws2p_list_or_empty conf "privilegedNodes") out)
      as (new & Hnew & Hall).
    exists new. split; [done|]. split; [done|].
    intros Hnot. contradict Hnot. set_solver. }
  rewrite (bool_decide_eq_false_2 _ Hpriv).
  exists []. by rewrite app_nil_r.
Qed.

Lemma only_list_nodes_uses_the_DAL_witness :
  ∃ new,
    (onConfiguredExecute (Some "no DAL") (inl "no DAL") (λ _, VUndef)
       conf_manual (VStr "list-peers") []).1 = [] ++ new
    ∧ Forall (λ c, ∃ args, c = ConsoleLog args) new
    ∧ (VStr "list-peers"
         ∉ [VStr "show-conf"; VStr "list-prefered"; VStr "list-privileged"] →
       new = []
       ∧ (onConfiguredExecute (Some "no DAL") (inl "no DAL") (λ _, VUndef)
            conf_manual (VStr "list-peers") []).2
         = inl "ReferenceError: constants is not defined").
Proof.
  apply (only_list_nodes_uses_the_DAL (Some "no DAL") (inl "no DAL")
           (λ _, VUndef) conf_manual (VStr "list-peers") []).
  discriminate.
Defined.

(** ** [onLoading]: what it reads of the command line *)

(** X20.  [onLoading] reads sixteen properties of [program] and no other:
    setting or changing a property of [program] under any other name --
    such as [ws2pNoprivate] or [ws2pNopublic], which differ from the two
    names [ws2pNoPrivate] and [ws2pNoPublic] that lines 58 and 59 read only
    by the case of one letter -- changes nothing of what the hook does. *)
Theorem onLoading_reads_only_its_options (nuuid_v4 : nat → string)
    (parseInt : JsVal → JsVal) (program : gmap string JsVal)
    (k : string) (v : JsVal) (s : Loading) :
  k ∉ ws2p_options →
  onLoading nuuid_v4 parseInt (<[k := v]> program) s
  = onLoading nuuid_v4 parseInt program s.
Proof.
  intros Hk. destruct s as [[ws oth] d]. rewrite !onLoading_run.
  unfold ws2p_options in Hk. rewrite !not_elem_of_cons in Hk.
  destruct_and!.
  unfold obj_scalars, obj_option, onLoading_nodes_and_upnp.
  by rewrite !(get_insert_ne program k) by done.
Qed.

Lemma onLoading_reads_only_its_options_witness :
  onLoading v4_constant id
    (<["ws2pNoprivate" := VBool true]> ∅) (mkLoading conf_manual 0)
  = onLoading v4_constant id ∅ (mkLoading conf_manual 0).
Proof.
  apply (onLoading_reads_only_its_options v4_constant id ∅
           "ws2pNoprivate" (VBool true) (mkLoading conf_manual 0)).
  unfold ws2p_options. rewrite !not_elem_of_cons.
  repeat split; (discriminate || apply not_elem_of_nil).
Defined.
